(** * The query and ingestion handlers of the RAG front end

    A shallow embedding of [frontend/src/App.jsx]: the two event handlers
    [handleIngest] and [handleQuery] of the [App] component, the stream
    decoding loop of [handleQuery], and the rendering of the citations.

    JavaScript strings are sequences of UTF-16 code units, the response body
    is a sequence of byte arrays, and a handler is a function from what the
    network answers to the sequence of effects it performs (state setters,
    alerts, requests and reads), in the order the source performs them. *)

From Stdlib Require Import List NArith ZArith Bool Ascii String Lia.
From Stdlib.Strings Require Import Byte.
From Stdlib Require DecimalFacts DecimalN.
Import ListNotations.

Set Warnings "-register-all".

Open Scope N_scope.
Open Scope list_scope.

(** ** Strings *)

(** A UTF-16 code unit, and a string of them. *)
Abbreviation char := N (only parsing).

Abbreviation jsstring := (list N) (only parsing).

Definition ch (a : ascii) : char := N_of_ascii a.

(** The JavaScript string written as an ASCII literal. *)
Definition js (s : string) : jsstring := map ch (list_ascii_of_string s).

Arguments ch : simpl never.
Arguments js : simpl never.

Fixpoint jsstring_eqb (s t : jsstring) : bool :=
  match s, t with
  | [], [] => true
  | c :: s', d :: t' => (c =? d) && jsstring_eqb s' t'
  | _, _ => false
  end.

(** [String.prototype.split] with a one-character separator. *)
Fixpoint split (sep : char) (s : jsstring) : list jsstring :=
  match s with
  | [] => [[]]
  | c :: s' =>
      if c =? sep then [] :: split sep s'
      else match split sep s' with
           | w :: ws => (c :: w) :: ws
           | [] => [[c]]
           end
  end.

Fixpoint uint_chars (d : Decimal.uint) : jsstring :=
  match d with
  | Decimal.Nil => []
  | Decimal.D0 d' => 0x30 :: uint_chars d'
  | Decimal.D1 d' => 0x31 :: uint_chars d'
  | Decimal.D2 d' => 0x32 :: uint_chars d'
  | Decimal.D3 d' => 0x33 :: uint_chars d'
  | Decimal.D4 d' => 0x34 :: uint_chars d'
  | Decimal.D5 d' => 0x35 :: uint_chars d'
  | Decimal.D6 d' => 0x36 :: uint_chars d'
  | Decimal.D7 d' => 0x37 :: uint_chars d'
  | Decimal.D8 d' => 0x38 :: uint_chars d'
  | Decimal.D9 d' => 0x39 :: uint_chars d'
  end.

(** The decimal digits of a natural number. *)
Definition decimal (n : N) : jsstring := uint_chars (N.to_uint n).

(** WhiteSpace and LineTerminator of ECMAScript, the characters that
    [String.prototype.trim] strips. *)
Definition is_white_space (c : char) : bool :=
  (c =? 0x9) || (c =? 0xA) || (c =? 0xB) || (c =? 0xC) || (c =? 0xD)
  || (c =? 0x20) || (c =? 0xA0) || (c =? 0x1680)
  || ((0x2000 <=? c) && (c <=? 0x200A))
  || (c =? 0x2028) || (c =? 0x2029) || (c =? 0x202F) || (c =? 0x205F)
  || (c =? 0x3000) || (c =? 0xFEFF).

Fixpoint trimStart (s : jsstring) : jsstring :=
  match s with
  | [] => []
  | c :: s' => if is_white_space c then trimStart s' else s
  end.

Definition trimEnd (s : jsstring) : jsstring := rev (trimStart (rev s)).

Definition trim (s : jsstring) : jsstring := trimEnd (trimStart s).

(** ** TextDecoder

    [new TextDecoder()] is a UTF-8 decoder in replacement mode; [decode(value)]
    without the [stream] option decodes each byte array on its own, flushes at
    its end and drops one leading byte order mark. *)

Record utf8_state := Utf8State {
  utf8_code_point : N;
  utf8_bytes_seen : N;
  utf8_bytes_needed : N;
  utf8_lower_boundary : N;
  utf8_upper_boundary : N
}.

Definition utf8_start : utf8_state := Utf8State 0 0 0 0x80 0xBF.

Definition REPLACEMENT : N := 0xFFFD.

(** A byte met when no sequence is pending. *)
Definition utf8_lead (b : N) : list N * utf8_state :=
  if b <=? 0x7F then ([b], utf8_start)
  else if (0xC2 <=? b) && (b <=? 0xDF) then
    ([], Utf8State (N.land b 0x1F) 0 1 0x80 0xBF)
  else if (0xE0 <=? b) && (b <=? 0xEF) then
    ([], Utf8State (N.land b 0xF) 0 2
           (if b =? 0xE0 then 0xA0 else 0x80)
           (if b =? 0xED then 0x9F else 0xBF))
  else if (0xF0 <=? b) && (b <=? 0xF4) then
    ([], Utf8State (N.land b 0x7) 0 3
           (if b =? 0xF0 then 0x90 else 0x80)
           (if b =? 0xF4 then 0x8F else 0xBF))
  else ([REPLACEMENT], utf8_start).

(** The code points of a byte array; a byte that cannot continue the pending
    sequence ends it with U+FFFD and is read again as a lead byte. *)
Fixpoint utf8_decode (st : utf8_state) (bs : list byte) : list N :=
  match bs with
  | [] => if utf8_bytes_needed st =? 0 then [] else [REPLACEMENT]
  | x :: rest =>
      let b := Byte.to_N x in
      if utf8_bytes_needed st =? 0 then
        let '(out, st') := utf8_lead b in out ++ utf8_decode st' rest
      else if (utf8_lower_boundary st <=? b) && (b <=? utf8_upper_boundary st) then
        let cp := N.lor (N.shiftl (utf8_code_point st) 6) (N.land b 0x3F) in
        if utf8_bytes_seen st + 1 =? utf8_bytes_needed st
        then cp :: utf8_decode utf8_start rest
        else utf8_decode
               (Utf8State cp (utf8_bytes_seen st + 1) (utf8_bytes_needed st) 0x80 0xBF)
               rest
      else
        let '(out, st') := utf8_lead b in
        REPLACEMENT :: out ++ utf8_decode st' rest
  end.

Definition strip_bom (cps : list N) : list N :=
  match cps with
  | c :: rest => if c =? 0xFEFF then rest else cps
  | [] => []
  end.

(** The UTF-16 code units of a code point. *)
Definition utf16_units (cp : N) : jsstring :=
  if cp <? 0x10000 then [cp]
  else [0xD800 + (cp - 0x10000) / 0x400; 0xDC00 + (cp - 0x10000) mod 0x400].

Definition TextDecoder_decode (value : list byte) : jsstring :=
  flat_map utf16_units (strip_bom (utf8_decode utf8_start value)).

(** The bytes of an ASCII literal. *)
Definition bytes (s : string) : list byte := map byte_of_ascii (list_ascii_of_string s).

(** JSON texts are written with an apostrophe for each double quote. *)
Definition unquote (a : ascii) : ascii :=
  if Ascii.eqb a "'" then ascii_of_N 0x22 else a.

Definition json (s : string) : jsstring := map ch (map unquote (list_ascii_of_string s)).

Definition json_bytes (s : string) : list byte :=
  map byte_of_ascii (map unquote (list_ascii_of_string s)).

(** A line of JSON text and its newline. *)
Definition json_line (s : string) : list byte := json_bytes s ++ [x0a].

Arguments json : simpl never.

(** ** Values

    What the engine leaves open is a parameter of the development: the
    arithmetic of Numbers (binary64) and the wording of the messages of the
    errors the engine itself raises. *)

Class Engine := {
  Number : Type;
  (** the Number a JSON number token denotes *)
  number_of_literal : jsstring -> Number;
  (** [Number::toString] *)
  number_to_string : Number -> jsstring;
  number_add : Number -> Number -> Number;
  (** [+0], [-0] and [NaN] *)
  number_is_falsy : Number -> bool;
  number_NaN : Number;
  (** the message of the [SyntaxError] that [JSON.parse] raises on a text *)
  json_syntax_message : jsstring -> jsstring;
  (** the message of the [TypeError] raised by reading a property of [null] *)
  null_property_message : jsstring -> jsstring;
  (** the message of the [TypeError] raised by calling a missing method *)
  not_a_function_message : jsstring -> jsstring
}.

Inductive error_kind := SyntaxError | TypeError | PlainError | NetworkError.

(** A thrown error object; the handlers read only its [message]. *)
Record exn := Exn { kind : error_kind; message : jsstring }.

Definition result (A : Type) : Type := (exn + A)%type.

(** What a parser returns: a result and the text left, a rejection, or
    nothing because the bound on its nesting was too small. *)
Inductive parsed (A : Type) :=
| Parsed (a : A) (rest : jsstring)
| Rejected
| OutOfFuel.
Arguments Parsed {A} a rest.
Arguments Rejected {A}.
Arguments OutOfFuel {A}.

Section Values.
Context {E : Engine}.

Inductive value :=
| VUndefined
| VNull
| VBool (b : bool)
| VNum (n : Number)
| VStr (s : jsstring)
| VArr (elements : list value)
| VObj (members : list (jsstring * value)).

(** The own property [key] of an object built by [JSON.parse]: of two
    members with one name the later one wins. *)
Fixpoint lookup (key : jsstring) (members : list (jsstring * value)) : option value :=
  match members with
  | [] => None
  | (k, v) :: rest =>
      match lookup key rest with
      | Some v' => Some v'
      | None => if jsstring_eqb k key then Some v else None
      end
  end.

(** [v.key] where neither [v] nor its prototypes define any of the names the
    handlers read ([type], [data], [error], [message], [id], [source_text]). *)
Definition get (v : value) (key : jsstring) : result value :=
  match v with
  | VNull | VUndefined => inl (Exn TypeError (null_property_message key))
  | VObj members =>
      match lookup key members with
      | Some x => inr x
      | None => inr VUndefined
      end
  | _ => inr VUndefined
  end.

Definition join (sep : jsstring) (parts : list jsstring) : jsstring :=
  match parts with
  | [] => []
  | p :: ps => p ++ flat_map (fun q => sep ++ q) ps
  end.

(** [ToString], with [Array.prototype.join] for arrays. *)
Fixpoint ToString (v : value) : jsstring :=
  match v with
  | VUndefined => js "undefined"
  | VNull => js "null"
  | VBool true => js "true"
  | VBool false => js "false"
  | VNum n => number_to_string n
  | VStr s => s
  | VArr vs =>
      join (js ",")
        (map (fun x => match x with
                       | VUndefined | VNull => []
                       | _ => ToString x
                       end) vs)
  | VObj _ => js "[object Object]"
  end.

Definition ToPrimitive (v : value) : value :=
  match v with
  | VArr _ | VObj _ => VStr (ToString v)
  | _ => v
  end.

(** [ToNumber] of a primitive that is not a string. *)
Definition ToNumber (v : value) : Number :=
  match v with
  | VNull | VBool false => number_of_literal (js "0")
  | VBool true => number_of_literal (js "1")
  | VNum n => n
  | _ => number_NaN
  end.

(** The operator [+]. *)
Definition js_add (a b : value) : value :=
  match ToPrimitive a, ToPrimitive b with
  | VStr s, q => VStr (s ++ ToString q)
  | p, VStr t => VStr (ToString p ++ t)
  | p, q => VNum (number_add (ToNumber p) (ToNumber q))
  end.

(** [ToBoolean]. *)
Definition truthy (v : value) : bool :=
  match v with
  | VUndefined | VNull => false
  | VBool b => b
  | VNum n => negb (number_is_falsy n)
  | VStr s => negb (jsstring_eqb s [])
  | VArr _ | VObj _ => true
  end.

(** The operator [||]. *)
Definition js_or (a b : value) : value := if truthy a then a else b.

(** [v === s] for a string literal [s]. *)
Definition is_string (v : value) (s : jsstring) : bool :=
  match v with
  | VStr t => jsstring_eqb t s
  | _ => false
  end.

(** ** JSON.parse *)

Definition is_json_space (c : char) : bool :=
  (c =? 0x20) || (c =? 0x9) || (c =? 0xA) || (c =? 0xD).

Fixpoint skip_ws (s : jsstring) : jsstring :=
  match s with
  | c :: s' => if is_json_space c then skip_ws s' else s
  | [] => []
  end.

Definition is_digit (c : char) : bool := (0x30 <=? c) && (c <=? 0x39).

Definition hex_digit (c : char) : option N :=
  if is_digit c then Some (c - 0x30)
  else if (0x41 <=? c) && (c <=? 0x46) then Some (c - 0x41 + 10)
  else if (0x61 <=? c) && (c <=? 0x66) then Some (c - 0x61 + 10)
  else None.

Definition simple_escape (c : char) : option char :=
  if c =? 0x22 then Some (0x22)
  else if c =? ch "\" then Some (ch "\")
  else if c =? ch "/" then Some (ch "/")
  else if c =? ch "b" then Some 0x8
  else if c =? ch "f" then Some 0xC
  else if c =? ch "n" then Some 0xA
  else if c =? ch "r" then Some 0xD
  else if c =? ch "t" then Some 0x9
  else None.

(** The characters of a string token after its opening quote, up to and
    without the closing one, and the text that follows. *)
Fixpoint parse_string (s : jsstring) : option (jsstring * jsstring) :=
  match s with
  | [] => None
  | c :: s1 =>
      if c =? 0x22 then Some ([], s1)
      else if c =? ch "\" then
        match s1 with
        | [] => None
        | e :: s2 =>
            if e =? ch "u" then
              match s2 with
              | h1 :: h2 :: h3 :: h4 :: s3 =>
                  match hex_digit h1, hex_digit h2, hex_digit h3, hex_digit h4 with
                  | Some a, Some b, Some c', Some d =>
                      match parse_string s3 with
                      | Some (str, rest) =>
                          Some (((a * 16 + b) * 16 + c') * 16 + d :: str, rest)
                      | None => None
                      end
                  | _, _, _, _ => None
                  end
              | _ => None
              end
            else
              match simple_escape e with
              | Some x =>
                  match parse_string s2 with
                  | Some (str, rest) => Some (x :: str, rest)
                  | None => None
                  end
              | None => None
              end
        end
      else if c <? 0x20 then None
      else
        match parse_string s1 with
        | Some (str, rest) => Some (c :: str, rest)
        | None => None
        end
  end.

Fixpoint take_digits (s : jsstring) : jsstring * jsstring :=
  match s with
  | c :: s' =>
      if is_digit c then let '(ds, rest) := take_digits s' in (c :: ds, rest)
      else ([], s)
  | [] => ([], [])
  end.

(** One or more digits. *)
Definition scan_digits (s : jsstring) : option (jsstring * jsstring) :=
  match take_digits s with
  | ([], _) => None
  | (ds, rest) => Some (ds, rest)
  end.

Definition scan_sign (s : jsstring) : jsstring * jsstring :=
  match s with
  | c :: s' => if c =? ch "-" then ([c], s') else ([], s)
  | [] => ([], [])
  end.

Definition scan_int (s : jsstring) : option (jsstring * jsstring) :=
  match s with
  | c :: s' =>
      if c =? ch "0" then Some ([c], s')
      else if is_digit c then let '(ds, rest) := take_digits s' in Some (c :: ds, rest)
      else None
  | [] => None
  end.

Definition scan_frac (s : jsstring) : option (jsstring * jsstring) :=
  match s with
  | c :: s' =>
      if c =? ch "." then
        match scan_digits s' with
        | Some (ds, rest) => Some (c :: ds, rest)
        | None => None
        end
      else Some ([], s)
  | [] => Some ([], [])
  end.

Definition scan_exp (s : jsstring) : option (jsstring * jsstring) :=
  match s with
  | c :: s' =>
      if (c =? ch "e") || (c =? ch "E") then
        let '(sign, s'') :=
          match s' with
          | d :: t => if (d =? ch "+") || (d =? ch "-") then ([d], t) else ([], s')
          | [] => ([], [])
          end in
        match scan_digits s'' with
        | Some (ds, rest) => Some (c :: sign ++ ds, rest)
        | None => None
        end
      else Some ([], s)
  | [] => Some ([], [])
  end.

(** The text of a number token and what follows it. *)
Definition scan_number (s : jsstring) : option (jsstring * jsstring) :=
  let '(sign, s1) := scan_sign s in
  match scan_int s1 with
  | None => None
  | Some (int, s2) =>
      match scan_frac s2 with
      | None => None
      | Some (frac, s3) =>
          match scan_exp s3 with
          | None => None
          | Some (exp, s4) => Some (sign ++ int ++ frac ++ exp, s4)
          end
      end
  end.

(** [s] without its prefix [word], if it has it. *)
Fixpoint strip_prefix (word s : jsstring) : option jsstring :=
  match word, s with
  | [], _ => Some s
  | w :: word', c :: s' => if w =? c then strip_prefix word' s' else None
  | _ :: _, [] => None
  end.

(** Recursive descent over the JSON grammar; [fuel] bounds the number of
    nested calls. *)
Fixpoint parse_value (fuel : nat) (s : jsstring) : parsed value :=
  match fuel with
  | O => OutOfFuel
  | S fuel' =>
      match skip_ws s with
      | [] => Rejected
      | c :: r =>
          if c =? ch "{" then
            match skip_ws r with
            | [] => Rejected
            | c' :: r' =>
                if c' =? ch "}" then Parsed (VObj []) r'
                else
                  match parse_members fuel' (c' :: r') with
                  | Parsed ms rest => Parsed (VObj ms) rest
                  | Rejected => Rejected
                  | OutOfFuel => OutOfFuel
                  end
            end
          else if c =? ch "[" then
            match skip_ws r with
            | [] => Rejected
            | c' :: r' =>
                if c' =? ch "]" then Parsed (VArr []) r'
                else
                  match parse_elements fuel' (c' :: r') with
                  | Parsed vs rest => Parsed (VArr vs) rest
                  | Rejected => Rejected
                  | OutOfFuel => OutOfFuel
                  end
            end
          else if c =? 0x22 then
            match parse_string r with
            | Some (str, rest) => Parsed (VStr str) rest
            | None => Rejected
            end
          else if c =? ch "t" then
            match strip_prefix (js "rue") r with
            | Some rest => Parsed (VBool true) rest
            | None => Rejected
            end
          else if c =? ch "f" then
            match strip_prefix (js "alse") r with
            | Some rest => Parsed (VBool false) rest
            | None => Rejected
            end
          else if c =? ch "n" then
            match strip_prefix (js "ull") r with
            | Some rest => Parsed VNull rest
            | None => Rejected
            end
          else
            match scan_number (c :: r) with
            | Some (lexeme, rest) => Parsed (VNum (number_of_literal lexeme)) rest
            | None => Rejected
            end
      end
  end

with parse_elements (fuel : nat) (s : jsstring) : parsed (list value) :=
  match fuel with
  | O => OutOfFuel
  | S fuel' =>
      match parse_value fuel' s with
      | Parsed v r =>
          match skip_ws r with
          | [] => Rejected
          | c :: r' =>
              if c =? ch "," then
                match parse_elements fuel' r' with
                | Parsed vs rest => Parsed (v :: vs) rest
                | Rejected => Rejected
                | OutOfFuel => OutOfFuel
                end
              else if c =? ch "]" then Parsed [v] r'
              else Rejected
          end
      | Rejected => Rejected
      | OutOfFuel => OutOfFuel
      end
  end

with parse_members (fuel : nat) (s : jsstring) : parsed (list (jsstring * value)) :=
  match fuel with
  | O => OutOfFuel
  | S fuel' =>
      match skip_ws s with
      | [] => Rejected
      | q :: r0 =>
          if q =? 0x22 then
            match parse_string r0 with
            | None => Rejected
            | Some (key, r1) =>
                match skip_ws r1 with
                | [] => Rejected
                | colon :: r2 =>
                    if colon =? ch ":" then
                      match parse_value fuel' r2 with
                      | Parsed v r3 =>
                          match skip_ws r3 with
                          | [] => Rejected
                          | c :: r4 =>
                              if c =? ch "," then
                                match parse_members fuel' r4 with
                                | Parsed ms rest => Parsed ((key, v) :: ms) rest
                                | Rejected => Rejected
                                | OutOfFuel => OutOfFuel
                                end
                              else if c =? ch "}" then Parsed [(key, v)] r4
                              else Rejected
                          end
                      | Rejected => Rejected
                      | OutOfFuel => OutOfFuel
                      end
                    else Rejected
                end
            end
          else Rejected
      end
  end.

(** [JSON.parse(text)]: one value between optional white space, or a
    [SyntaxError]. *)
Definition JSON_parse (text : jsstring) : result value :=
  match parse_value (2 * List.length text + 1) text with
  | Parsed v rest =>
      match skip_ws rest with
      | [] => inr v
      | _ :: _ => inl (Exn SyntaxError (json_syntax_message text))
      end
  | _ => inl (Exn SyntaxError (json_syntax_message text))
  end.

End Values.

(** ** The component *)

(** A [File] chosen in the file input. *)
Record File := { file_name : jsstring; file_bytes : list byte }.

(** The outcome of [await fetch(...)]. *)
Inductive fetched (R : Type) :=
| Fulfilled (response : R)
| Failed (err : exn).
Arguments Fulfilled {R} response.
Arguments Failed {R} err.

Section App.
Context {E : Engine}.

(** The state of [App], one field per [useState]. *)
Record state := State {
  selectedFile : option File;
  query : jsstring;
  answer : value;
  citations : value;
  isLoading : bool;
  error : value
}.

(** [useState(null)], [useState('')], [useState([])], [useState(false)]. *)
Definition initial_state : state :=
  State None [] VNull (VArr []) false (VStr []).

(** What is sent with a request. *)
Inductive payload :=
| FormData (fields : list (jsstring * File))
| JSON_stringify (v : value).

(** What a handler does, in the order it does it: calls of the state setters
    ([setAnswer_prev_plus data] is [setAnswer(prev => prev + data)]), of
    [alert] and [fetch], of [response.json()] and of [reader.read()]. *)
Inductive effect :=
| setSelectedFile (f : option File)
| setIsLoading (b : bool)
| setError (v : value)
| setAnswer (v : value)
| setAnswer_prev_plus (data : value)
| setCitations (v : value)
| alert (msg : value)
| fetch (url : jsstring) (body : payload)
| response_json
| reader_read.

(** The state after a setter has run; the other effects leave it alone. *)
Definition apply (st : state) (e : effect) : state :=
  match e with
  | setSelectedFile f =>
      State f (query st) (answer st) (citations st) (isLoading st) (error st)
  | setIsLoading b =>
      State (selectedFile st) (query st) (answer st) (citations st) b (error st)
  | setError v =>
      State (selectedFile st) (query st) (answer st) (citations st) (isLoading st) v
  | setAnswer v =>
      State (selectedFile st) (query st) v (citations st) (isLoading st) (error st)
  | setAnswer_prev_plus data =>
      State (selectedFile st) (query st) (js_add (answer st) data) (citations st)
        (isLoading st) (error st)
  | setCitations v =>
      State (selectedFile st) (query st) (answer st) v (isLoading st) (error st)
  | alert _ | fetch _ _ | response_json | reader_read => st
  end.

Definition run (st : state) (trace : list effect) : state := fold_left apply trace st.

(** *** Effects and exceptions

    A computation performs effects and then returns or throws. *)
Definition M (A : Type) : Type := (list effect * result A)%type.

Definition ret {A} (a : A) : M A := ([], inr a).

Definition throw {A} (e : exn) : M A := ([], inl e).

Definition perform (e : effect) : M unit := ([e], inr tt).

Definition lift {A} (r : result A) : M A := ([], r).

Definition bind {A B} (m : M A) (k : A -> M B) : M B :=
  match m with
  | (t, inl e) => (t, inl e)
  | (t, inr a) => let '(t', r) := k a in (t ++ t', r)
  end.

Notation "x <- m ;; k" := (bind m (fun x => k))
  (at level 61, m at next level, right associativity).
Notation "m ;; k" := (bind m (fun _ => k))
  (at level 61, right associativity).

(** [try { body } catch (err) { handler } finally { last }], for a handler
    and a finaliser that do not throw: the effects performed in all. *)
Definition try_catch_finally (body : M unit) (handler : exn -> list effect)
    (last : list effect) : list effect :=
  match body with
  | (t, inr _) => t ++ last
  | (t, inl err) => t ++ handler err ++ last
  end.

(** [for (const x of xs) { f x }]. *)
Fixpoint for_of {A} (xs : list A) (f : A -> M unit) : M unit :=
  match xs with
  | [] => ret tt
  | x :: rest => f x ;; for_of rest f
  end.

(** *** What the network answers *)

(** The response to [/ingest]: [response.ok] and the outcome of
    [response.json()]. *)
Record ingest_response := { ingest_ok : bool; ingest_json : result value }.

(** The body of the response to [/query] as its reader delivers it: byte
    arrays, then the end of the stream or a failed read. *)
Inductive stream :=
| done
| delivered (value : list byte) (rest : stream)
| read_fails (err : exn).

(** A response that has a body: [response.ok] and [response.body]. *)
Record query_response := { query_ok : bool; query_body : stream }.

Definition await_fetch {R} (url : jsstring) (body : payload) (net : fetched R) : M R :=
  perform (fetch url body) ;;
  match net with
  | Fulfilled r => ret r
  | Failed err => throw err
  end.

Definition backendUrl : jsstring := js "http://127.0.0.1:5000".

(** [new Error(msg)]: the message is [ToString(msg)], and empty when [msg]
    is [undefined]. *)
Definition new_Error (msg : value) : exn :=
  Exn PlainError (match msg with VUndefined => [] | _ => ToString msg end).

(** *** handleIngest *)

Definition handleIngest (st : state) (net : fetched ingest_response) : list effect :=
  match selectedFile st with
  | None => [alert (VStr (js "Please select a file first."))]
  | Some file =>
      [setIsLoading true; setError (VStr [])] ++
      try_catch_finally
        (response <- await_fetch (backendUrl ++ js "/ingest")
                       (FormData [(js "file", file)]) net ;;
         (if negb (ingest_ok response) then
            perform response_json ;;
            errData <- lift (ingest_json response) ;;
            err <- lift (get errData (js "error")) ;;
            throw (new_Error
                     (js_or err (VStr (js "Ingestion failed. Is the backend running?"))))
          else ret tt) ;;
         perform response_json ;;
         data <- lift (ingest_json response) ;;
         msg <- lift (get data (js "message")) ;;
         perform (alert msg) ;;
         perform (setSelectedFile None))
        (fun err => [setError (VStr (message err))])
        [setIsLoading false]
  end.

(** *** handleQuery *)

(** The body of the [for] loop over the lines of one delivered piece, after
    [JSON.parse]. *)
Definition dispatch (parsed : value) : M unit :=
  t1 <- lift (get parsed (js "type")) ;;
  if is_string t1 (js "chunk") then
    data <- lift (get parsed (js "data")) ;;
    perform (setAnswer_prev_plus data)
  else
    t2 <- lift (get parsed (js "type")) ;;
    if is_string t2 (js "citations") then
      data <- lift (get parsed (js "data")) ;;
      perform (setCitations data)
    else
      t3 <- lift (get parsed (js "type")) ;;
      if is_string t3 (js "error") then
        data <- lift (get parsed (js "data")) ;;
        perform (setError data)
      else ret tt.

Definition process_line (line : jsstring) : M unit :=
  parsed <- lift (JSON_parse line) ;;
  dispatch parsed.

(** [chunk.split('\n').filter(line => line.trim() !== '')]. *)
Definition lines_of (chunk : jsstring) : list jsstring :=
  filter (fun line => negb (jsstring_eqb (trim line) [])) (split 0xA chunk).

Definition process_piece (value : list byte) : M unit :=
  let chunk := TextDecoder_decode value in
  let lines := lines_of chunk in
  for_of lines process_line.

(** The [while (true)] loop reading the stream. *)
Fixpoint read_loop (body : stream) : M unit :=
  perform reader_read ;;
  match body with
  | done => ret tt
  | read_fails err => throw err
  | delivered value rest => process_piece value ;; read_loop rest
  end.

Definition handleQuery (st : state) (net : fetched query_response) : list effect :=
  [setIsLoading true; setError (VStr []); setAnswer (VStr []); setCitations (VArr [])] ++
  try_catch_finally
    (response <- await_fetch (backendUrl ++ js "/query")
                   (JSON_stringify (VObj [(js "query", VStr (query st))])) net ;;
     (if negb (query_ok response) then
        throw (new_Error (VStr (js "Query failed. Is the backend running?")))
      else ret tt) ;;
     read_loop (query_body response))
    (fun err => [setError (VStr (message err))])
    [setIsLoading false].

(** *** Rendering of the sources *)

(** A React element: a tag, its [key] and [className], and its children,
    which are elements, literal text or values put in braces. *)
Inductive node :=
| text (s : jsstring)
| braces (v : value)
| element (tag : jsstring) (key : option value) (className : option jsstring)
    (children : list node).

(** The callback of [citations.map] in the answer card. *)
Definition render_citation (citation : value) : result node :=
  match get citation (js "id") with
  | inl e => inl e
  | inr key =>
      match get citation (js "id") with
      | inl e => inl e
      | inr id =>
          match get citation (js "source_text") with
          | inl e => inl e
          | inr source_text =>
              inr (element (js "div") (Some key) (Some (js "citation"))
                     [element (js "strong") None None
                        [text (js "["); braces id; text (js "]")];
                      element (js "p") None None [braces source_text]])
          end
      end
  end.

Fixpoint map_result {A B} (f : A -> result B) (xs : list A) : result (list B) :=
  match xs with
  | [] => inr []
  | x :: rest =>
      match f x with
      | inl e => inl e
      | inr y =>
          match map_result f rest with
          | inl e => inl e
          | inr ys => inr (y :: ys)
          end
      end
  end.

(** [citations.map(...)]: [map] is a method of arrays only. *)
Definition render_citations (cs : value) : result (list node) :=
  match cs with
  | VArr elements => map_result render_citation elements
  | VNull | VUndefined => inl (Exn TypeError (null_property_message (js "map")))
  | _ => inl (Exn TypeError (not_a_function_message (js "citations.map")))
  end.

End App.

Notation "x <- m ;; k" := (bind m (fun x => k))
  (at level 61, m at next level, right associativity).
Notation "m ;; k" := (bind m (fun _ => k))
  (at level 61, right associativity).

(** ** An engine to run examples on

    Numbers are exact decimals [m * 10^e] (and [NaN]); they agree with
    binary64 on the integers of the examples. The messages are fixed texts.
    The theorems below hold for every engine. *)
Module Reference.

Definition number : Type := option (Z * Z).

Fixpoint digits_value (acc : N) (s : jsstring) : N :=
  match s with
  | c :: s' => digits_value (acc * 10 + (c - 0x30)) s'
  | [] => acc
  end.

Definition of_literal (lexeme : jsstring) : number :=
  let '(sign, s1) := scan_sign lexeme in
  let '(int, s2) := take_digits s1 in
  let '(frac, s3) :=
    match s2 with
    | c :: r => if c =? ch "." then take_digits r else ([], s2)
    | [] => ([], [])
    end in
  let exp :=
    match s3 with
    | _ :: d :: r =>
        if d =? ch "-" then (- Z.of_N (digits_value 0 r))%Z
        else if d =? ch "+" then Z.of_N (digits_value 0 r)
        else Z.of_N (digits_value 0 (d :: r))
    | _ => 0%Z
    end in
  let m := Z.of_N (digits_value 0 (int ++ frac)) in
  Some (match sign with [] => m | _ => (- m)%Z end, (exp - Z.of_nat (List.length frac))%Z).

Definition add (x y : number) : number :=
  match x, y with
  | Some (m1, e1), Some (m2, e2) =>
      let e := Z.min e1 e2 in
      Some ((m1 * 10 ^ (e1 - e) + m2 * 10 ^ (e2 - e))%Z, e)
  | _, _ => None
  end.

Definition is_falsy (x : number) : bool :=
  match x with
  | Some (m, _) => (m =? 0)%Z
  | None => true
  end.

Fixpoint drop_zeros (s : jsstring) : jsstring :=
  match s with
  | c :: s' => if c =? ch "0" then drop_zeros s' else s
  | [] => []
  end.

(** [Number::toString] of [m * 10^e]: its digits [s], their number [k] and
    the position [n] of the decimal point. *)
Definition to_string (x : number) : jsstring :=
  match x with
  | None => js "NaN"
  | Some (m, e) =>
      if (m =? 0)%Z then js "0"
      else
        let all := decimal (Z.to_N (Z.abs m)) in
        let s := rev (drop_zeros (rev all)) in
        let k := Z.of_nat (List.length s) in
        let n := (e + Z.of_nat (List.length all))%Z in
        let zeros z := repeat (ch "0") (Z.to_nat z) in
        (if (m <? 0)%Z then js "-" else []) ++
        (if ((k <=? n) && (n <=? 21))%Z then s ++ zeros (n - k)%Z
         else if ((0 <? n) && (n <=? 21))%Z then
           firstn (Z.to_nat n) s ++ js "." ++ skipn (Z.to_nat n) s
         else if ((-6 <? n) && (n <=? 0))%Z then js "0." ++ zeros (- n)%Z ++ s
         else
           firstn 1 s ++ (if (k =? 1)%Z then [] else js "." ++ skipn 1 s) ++ js "e"
           ++ (if (n - 1 <? 0)%Z then js "-" else js "+")
           ++ decimal (Z.to_N (Z.abs (n - 1))))
  end.

#[export] Instance engine : Engine := {|
  Number := number;
  number_of_literal := of_literal;
  number_to_string := to_string;
  number_add := add;
  number_is_falsy := is_falsy;
  number_NaN := None;
  json_syntax_message := fun _ => js "Unexpected token in JSON";
  null_property_message := fun key =>
    js "Cannot read properties of null (reading '" ++ key ++ js "')";
  not_a_function_message := fun what => what ++ js " is not a function"
|}.

End Reference.

(** A parser that consumes some of its input when it succeeds. *)
Definition shrinks {A} (p : jsstring -> parsed A) : Prop :=
  forall s a rest, p s = Parsed a rest -> (List.length rest < List.length s)%nat.

(** ** The wire format of the query stream *)

(** Modelled from the spec: the data model of the stream (section 3 of the
    spec); the producing side is not part of the front end. A citation is a
    small display identifier and the source text of its chunk. *)
Record Citation := { id : N; source_text : jsstring }.

(** The events of one query's stream. *)
Inductive StreamEvent :=
| Chunk (data : jsstring)
| Citations (data : list Citation)
| Error (data : jsstring).

(** The producing side writes JSON in ASCII: a quote and a backslash are
    escaped with a backslash, every character outside printable ASCII as
    [\uXXXX]. *)
Definition hex_char (d : N) : char :=
  if d <? 10 then 0x30 + d else 0x61 + (d - 10).

Definition escape_char (c : char) : jsstring :=
  if c =? 0x22 then [ch "\"; 0x22]
  else if c =? ch "\" then [ch "\"; ch "\"]
  else if (c <? 0x20) || (0x7E <? c) then
    [ch "\"; ch "u"; hex_char (c / 4096); hex_char ((c / 256) mod 16);
     hex_char ((c / 16) mod 16); hex_char (c mod 16)]
  else [c].

(** A JSON string token in ASCII. *)
Definition quote (s : jsstring) : jsstring :=
  0x22 :: flat_map escape_char s ++ [0x22].

(** The string token of [s] followed by the text [rest]. *)
Definition quoted (s rest : jsstring) : jsstring :=
  0x22 :: flat_map escape_char s ++ 0x22 :: rest.

Definition encode_citation (c : Citation) : jsstring :=
  json "{'id':" ++ decimal (id c) ++ json ",'source_text':" ++ quote (source_text c)
  ++ js "}".

(** Modelled from the spec: the producing side of the stream is not part of
    the front end. One event is one JSON object
    [{"type": ..., "data": ...}] on one line, written as the spec's example
    writes it; text outside printable ASCII is escaped. *)
Definition encode_event (e : StreamEvent) : jsstring :=
  match e with
  | Chunk s => json "{'type':'chunk','data':" ++ quote s ++ js "}"
  | Citations cs =>
      json "{'type':'citations','data':[" ++ join (js ",") (map encode_citation cs)
      ++ js "]}"
  | Error s => json "{'type':'error','data':" ++ quote s ++ js "}"
  end.

(** The bytes of an ASCII text. *)
Definition ascii_bytes (t : jsstring) : list byte :=
  map (fun c => match Byte.of_N c with Some b => b | None => x00 end) t.

(** Modelled from the spec: a record is an event's line and a newline. *)
Definition wire_record (e : StreamEvent) : list byte :=
  ascii_bytes (encode_event e ++ [0xA]).

(** The characters of a line of ASCII text. *)
Definition printable (c : char) : bool := (0x20 <=? c) && (c <=? 0x7E).

(** A string of UTF-16 code units. *)
Definition code_units (s : jsstring) : Prop := Forall (fun c => c < 0x10000) s.

Definition well_formed (e : StreamEvent) : Prop :=
  match e with
  | Chunk s | Error s => code_units s
  | Citations cs => Forall (fun c => code_units (source_text c)) cs
  end.

(** A nesting bound that is enough to parse the line of an event. *)
Definition event_fuel (e : StreamEvent) : nat :=
  match e with
  | Citations cs => (8 + List.length cs)%nat
  | _ => 4%nat
  end.

(** The stream that delivers the given byte arrays and ends. *)
Definition stream_of (pieces : list (list byte)) : stream :=
  fold_right delivered done pieces.

Section WireValues.
Context {E : Engine}.

Definition citation_value (c : Citation) : value :=
  VObj [(js "id", VNum (number_of_literal (decimal (id c))));
        (js "source_text", VStr (source_text c))].

(** The object an event is on the consuming side. *)
Definition event_value (e : StreamEvent) : value :=
  match e with
  | Chunk s => VObj [(js "type", VStr (js "chunk")); (js "data", VStr s)]
  | Citations cs =>
      VObj [(js "type", VStr (js "citations")); (js "data", VArr (map citation_value cs))]
  | Error s => VObj [(js "type", VStr (js "error")); (js "data", VStr s)]
  end.

(** What applying an event is: a chunk is appended to the answer, the
    citations replace the citations, an error sets the error. *)
Definition effect_of_event (e : StreamEvent) : effect :=
  match e with
  | Chunk s => setAnswer_prev_plus (VStr s)
  | Citations cs => setCitations (VArr (map citation_value cs))
  | Error s => setError (VStr s)
  end.

End WireValues.

(** ** What the stream decoding loop is meant to do *)

Definition no_newline (line : jsstring) : bool :=
  forallb (fun c => negb (c =? 0xA)) line.

Section Expected.
Context {E : Engine}.

(** The setters a record with the given [type] and [data] calls. *)
Definition dispatch_on_type (type data : value) : list effect :=
  if is_string type (js "chunk") then [setAnswer_prev_plus data]
  else if is_string type (js "citations") then [setCitations data]
  else if is_string type (js "error") then [setError data]
  else [].

(** What [handleQuery] does before its request. *)
Definition resets : list effect :=
  [setIsLoading true; setError (VStr []); setAnswer (VStr []); setCitations (VArr [])].

Definition query_request (st : state) : effect :=
  fetch (backendUrl ++ js "/query") (JSON_stringify (VObj [(js "query", VStr (query st))])).

(** The byte array [value] holds exactly the given records, each a line
    that parses to its event, followed by a newline. *)
Definition delivers_records (value : list byte) (records : list (jsstring * StreamEvent)) : Prop :=
  TextDecoder_decode value = flat_map (fun r => fst r ++ [0xA]) records
  /\ Forall (fun r => no_newline (fst r) = true
                      /\ JSON_parse (fst r) = inr (event_value (snd r))) records.

(** One read and the events of the piece it returned, applied in order. *)
Definition piece_trace (events : list StreamEvent) : list effect :=
  reader_read :: map effect_of_event events.

(** A citation as the answer card shows it: its bracketed id, then its
    source text. *)
Definition citation_card (c : Citation) : node :=
  let id_value := VNum (number_of_literal (decimal (id c))) in
  element (js "div") (Some id_value) (Some (js "citation"))
    [element (js "strong") None None [text (js "["); braces id_value; text (js "]")];
     element (js "p") None None [braces (VStr (source_text c))]].

Definition ingest_request (file : File) : effect :=
  fetch (backendUrl ++ js "/ingest") (FormData [(js "file", file)]).

(** An effect that leaves a string in the answer if there was one. *)
Definition keeps_answer_a_string (e : effect) : Prop :=
  match e with
  | setAnswer (VStr _) => True
  | setAnswer _ => False
  | _ => True
  end.

(** The fields of the state that a query's stream is displayed in. *)
Definition displayed (st : state) : value * value * value :=
  (answer st, citations st, error st).

End Expected.

(** The spec's example of a delivery that splits a record. *)
Definition split_delivery : stream :=
  delivered (json_bytes "{'type':'ch")
    (delivered (json_line "unk','data':'hi'}") done).

(** An error record followed by a chunk record, in two pieces. *)
Definition error_then_chunk : stream :=
  delivered (json_line "{'type':'error','data':'boom'}")
    (delivered (json_line "{'type':'chunk','data':'late'}") done).

(** Two pieces that hold whole records: two chunks, then the citations. *)
Definition aligned_delivery : list (list byte * list (jsstring * StreamEvent)) :=
  [(json_line "{'type':'chunk','data':'Hel'}" ++ json_line "{'type':'chunk','data':'lo'}",
    [(json "{'type':'chunk','data':'Hel'}", Chunk (js "Hel"));
     (json "{'type':'chunk','data':'lo'}", Chunk (js "lo"))]);
   (json_line "{'type': 'citations', 'data': [{'id': 1, 'source_text': 's'}]}",
    [(json "{'type': 'citations', 'data': [{'id': 1, 'source_text': 's'}]}",
      Citations [{| id := 1; source_text := js "s" |}])])].

(** Three events in two pieces; the second chunk holds a quote, a
    backslash, a newline and a letter outside ASCII. *)
Definition three_events : list (list StreamEvent) :=
  [[Chunk (js "hi")];
   [Chunk [0x22; 0x5C; 0xA; 0xE9]; Citations [{| id := 1; source_text := js "s" |}]]].


(** ** The rest of the component *)

Section View.
Context {E : Engine}.

(** [disabled={isLoading || !selectedFile}] of the ingest button. *)
Definition ingest_button_disabled (st : state) : bool :=
  isLoading st || match selectedFile st with Some _ => false | None => true end.

(** [disabled={isLoading || !query}] of the query button. *)
Definition query_button_disabled (st : state) : bool :=
  isLoading st || jsstring_eqb (query st) [].

(** [{error && <div className="error">{error}</div>}]: the banner, or the
    falsy value itself. *)
Definition error_banner (st : state) : node :=
  if truthy (error st)
  then element (js "div") None (Some (js "error")) [braces (error st)]
  else braces (error st).

(** [{answer && (<div className="card answer-card">...</div>)}]: the card
    is built, and [citations.map] called, only for a truthy answer. The
    array that [map] returns is spliced into the children. *)
Definition answer_card (st : state) : result node :=
  if truthy (answer st) then
    match render_citations (citations st) with
    | inl e => inl e
    | inr cards =>
        inr (element (js "div") None (Some (js "card answer-card"))
               (element (js "h2") None None [text (js "Answer")]
                :: element (js "p") None None [braces (answer st)]
                :: element (js "h3") None None [text (js "Sources")]
                :: cards))
    end
  else inr (braces (answer st)).

Definition is_fetch (e : effect) : bool :=
  match e with fetch _ _ => true | _ => false end.

Definition is_response_json (e : effect) : bool :=
  match e with response_json => true | _ => false end.

Definition is_reader_read (e : effect) : bool :=
  match e with reader_read => true | _ => false end.


(** The effects of the loop that reads the stream. *)
Definition loop_effect (e : effect) : Prop :=
  match e with
  | reader_read | setAnswer_prev_plus _ | setCitations _ | setError _ => True
  | _ => False
  end.

(** An effect that is no call of [setIsLoading]. *)
Definition keeps_loading (e : effect) : Prop :=
  match e with setIsLoading _ => False | _ => True end.

(** An effect that changes neither the chosen file nor the query nor the
    loading flag. *)
Definition keeps_controls (e : effect) : Prop :=
  match e with setSelectedFile _ | setIsLoading _ => False | _ => True end.


(** What [handleIngest] does between its request and the end of loading,
    case by case. *)
Definition ingest_middle (net : fetched ingest_response) : list effect :=
  match net with
  | Failed err => [setError (VStr (message err))]
  | Fulfilled r =>
      response_json ::
      match ingest_json r with
      | inl e => [setError (VStr (message e))]
      | inr body =>
          if ingest_ok r then
            match get body (js "message") with
            | inl e => [setError (VStr (message e))]
            | inr msg => [alert msg; setSelectedFile None]
            end
          else
            match get body (js "error") with
            | inl e => [setError (VStr (message e))]
            | inr err =>
                [setError (VStr (message (new_Error
                   (js_or err (VStr (js "Ingestion failed. Is the backend running?"))))))]
            end
      end
  end.

(** What a sequence of events leaves on display. *)
Definition answer_text (events : list StreamEvent) : jsstring :=
  flat_map (fun e => match e with Chunk s => s | _ => [] end) events.

Definition last_citations (events : list StreamEvent) : list Citation :=
  fold_left (fun acc e => match e with Citations cs => cs | _ => acc end) events [].

Definition last_error (events : list StreamEvent) : value :=
  fold_left (fun acc e => match e with Error s => VStr s | _ => acc end)
    events (VStr []).

(** The events of a delivery, piece after piece. *)
Definition events_of (pieces : list (list byte * list (jsstring * StreamEvent)))
  : list StreamEvent :=
  flat_map (fun p => map snd (snd p)) pieces.

(** The stream that delivers the given byte arrays and then fails. *)
Definition failing_stream (pieces : list (list byte)) (err : exn) : stream :=
  fold_right delivered (read_fails err) pieces.

(** The answer card of a non-empty answer and some citations. *)
Definition card_of (a : jsstring) (cs : list Citation) : node :=
  element (js "div") None (Some (js "card answer-card"))
    (element (js "h2") None None [text (js "Answer")]
     :: element (js "p") None None [braces (VStr a)]
     :: element (js "h3") None None [text (js "Sources")]
     :: map citation_card cs).

(** A line that the filter of the loop keeps. *)
Definition nonblank (line : jsstring) : bool := negb (jsstring_eqb (trim line) []).

(** A chunk and then an error, in one piece of whole records. *)
Definition chunk_then_error : list (list byte * list (jsstring * StreamEvent)) :=
  [(json_line "{'type':'chunk','data':'partial'}"
      ++ json_line "{'type':'error','data':'boom'}",
    [(json "{'type':'chunk','data':'partial'}", Chunk (js "partial"));
     (json "{'type':'error','data':'boom'}", Error (js "boom"))])].

(** A state in which a file is chosen. *)
Definition chosen_file : File := {| file_name := js "notes.txt"; file_bytes := bytes "abc" |}.

Definition chosen_state : state :=
  State (Some chosen_file) (js "what?") VNull (VArr []) false (VStr []).




End View.

(** The code point of a two-byte sequence. *)
Definition two_byte_code_point (lead cont : N) : N :=
  N.lor (N.shiftl (N.land lead 0x1F) 6) (N.land cont 0x3F).

(** * Properties *)

(** ** Lines *)

Lemma jsstring_eqb_eq (s t : jsstring) : jsstring_eqb s t = true <-> s = t.
Proof.
  revert t; induction s as [|c s IH]; intros [|d t]; simpl; split;
    try congruence; try reflexivity.
  - rewrite andb_true_iff, N.eqb_eq, IH. intros [-> ->]; reflexivity.
  - intros H; injection H as -> ->. rewrite N.eqb_refl. simpl. apply IH; reflexivity.
Qed.

Lemma jsstring_eqb_refl (s : jsstring) : jsstring_eqb s s = true.
Proof. apply jsstring_eqb_eq; reflexivity. Qed.

Lemma split_line (sep : char) (l rest : jsstring) :
  ~ In sep l -> split sep (l ++ sep :: rest) = l :: split sep rest.
Proof.
  induction l as [|c l IH]; simpl; intros Hnot.
  - rewrite N.eqb_refl. reflexivity.
  - destruct (N.eqb_spec c sep) as [->|Hne].
    + exfalso. apply Hnot. left; reflexivity.
    + rewrite IH by (intros Hin; apply Hnot; right; exact Hin). reflexivity.
Qed.

(** Splitting newline-terminated lines gives the lines and one empty string. *)
Lemma split_lines (sep : char) (lines : list jsstring) :
  Forall (fun l => ~ In sep l) lines ->
  split sep (flat_map (fun l => l ++ [sep]) lines) = lines ++ [[]].
Proof.
  induction 1 as [|l lines Hl _ IH]; simpl.
  - reflexivity.
  - rewrite <- app_assoc. simpl. rewrite split_line by exact Hl. rewrite IH. reflexivity.
Qed.

Lemma trimStart_head (s : jsstring) c r :
  trimStart s = c :: r -> is_white_space c = false.
Proof.
  induction s as [|d s IH]; simpl; [discriminate|].
  destruct (is_white_space d) eqn:Hd; [exact IH|].
  intros H; injection H as <- _. exact Hd.
Qed.

Lemma trimStart_nil (s : jsstring) :
  trimStart s = [] -> forallb is_white_space s = true.
Proof.
  induction s as [|d s IH]; simpl; [reflexivity|].
  destruct (is_white_space d); [exact IH|discriminate].
Qed.

Lemma forallb_rev {A} (p : A -> bool) (l : list A) :
  forallb p (rev l) = forallb p l.
Proof.
  induction l as [|a l IH]; simpl; [reflexivity|].
  rewrite forallb_app, IH. simpl. rewrite andb_true_r. apply andb_comm.
Qed.

(** Only a string of white space trims to the empty string. *)
Lemma trim_nil (s : jsstring) :
  trim s = [] -> forallb is_white_space s = true.
Proof.
  unfold trim, trimEnd. intros H.
  assert (Hr : trimStart (rev (trimStart s)) = []).
  { destruct (trimStart (rev (trimStart s))) as [|x xs]; [reflexivity|].
    simpl in H. destruct (rev xs); discriminate. }
  apply trimStart_nil in Hr. rewrite forallb_rev in Hr.
  destruct (trimStart s) as [|c r] eqn:Hs.
  - apply trimStart_nil; exact Hs.
  - apply trimStart_head in Hs. simpl in Hr. rewrite Hs in Hr. discriminate.
Qed.

(** ** ASCII text on the wire *)

Lemma utf8_decode_ascii (bs : list byte) :
  Forall (fun b => Byte.to_N b < 0x80) bs ->
  utf8_decode utf8_start bs = map Byte.to_N bs.
Proof.
  induction 1 as [|b bs Hb _ IH]; [reflexivity|].
  cbn [utf8_decode utf8_start utf8_bytes_needed N.eqb map].
  unfold utf8_lead. replace (Byte.to_N b <=? 0x7F) with true
    by (symmetry; apply N.leb_le; lia).
  fold utf8_start. rewrite IH. reflexivity.
Qed.

Lemma flat_map_utf16_units (t : jsstring) :
  Forall (fun c => c < 0x80) t -> flat_map utf16_units t = t.
Proof.
  induction 1 as [|c t Hc _ IH]; [reflexivity|].
  cbn [flat_map]. rewrite IH. unfold utf16_units.
  replace (c <? 0x10000) with true by (symmetry; apply N.ltb_lt; lia).
  reflexivity.
Qed.

Lemma to_N_ascii_byte (c : char) :
  c < 0x80 -> Byte.to_N (match Byte.of_N c with Some b => b | None => x00 end) = c.
Proof.
  intros Hc. destruct (Byte.of_N c) as [b|] eqn:Hb.
  - apply Byte.to_of_N, Hb.
  - apply Byte.of_N_None_iff in Hb. lia.
Qed.

(** ASCII bytes decode to the text they were written from. *)
Lemma TextDecoder_decode_ascii (t : jsstring) :
  Forall (fun c => c < 0x80) t -> TextDecoder_decode (ascii_bytes t) = t.
Proof.
  intros Ht. unfold TextDecoder_decode.
  assert (Hmap : map Byte.to_N (ascii_bytes t) = t).
  { unfold ascii_bytes. rewrite map_map.
    induction Ht as [|c t Hc _ IH]; [reflexivity|].
    simpl. rewrite to_N_ascii_byte by exact Hc. rewrite IH. reflexivity. }
  rewrite utf8_decode_ascii.
  - rewrite Hmap. destruct Ht as [|c t Hc Ht]; [reflexivity|].
    unfold strip_bom. replace (c =? 0xFEFF) with false
      by (symmetry; apply N.eqb_neq; lia).
    apply flat_map_utf16_units. constructor; assumption.
  - apply Forall_forall. intros b Hb.
    assert (Hin : In (Byte.to_N b) t) by (rewrite <- Hmap; apply in_map, Hb).
    rewrite Forall_forall in Ht. apply Ht, Hin.
Qed.

Lemma printable_spec (c : char) : printable c = true <-> 0x20 <= c <= 0x7E.
Proof. unfold printable. rewrite andb_true_iff, !N.leb_le. reflexivity. Qed.

Lemma printable_ascii (t : jsstring) :
  forallb printable t = true -> Forall (fun c => c < 0x80) t.
Proof.
  rewrite forallb_forall, Forall_forall. intros H c Hc.
  apply H, printable_spec in Hc. lia.
Qed.

Lemma printable_no_newline (t : jsstring) :
  forallb printable t = true -> no_newline t = true.
Proof.
  unfold no_newline. rewrite !forallb_forall. intros H c Hc.
  apply H, printable_spec in Hc. apply negb_true_iff, N.eqb_neq. lia.
Qed.

Lemma hex_char_printable (d : N) : d < 16 -> printable (hex_char d) = true.
Proof.
  intros Hd. apply printable_spec. unfold hex_char.
  destruct (N.ltb_spec d 10); lia.
Qed.

Lemma escape_char_printable (c : char) :
  c < 0x10000 -> forallb printable (escape_char c) = true.
Proof.
  intros Hc. unfold escape_char.
  destruct (c =? 0x22); [reflexivity|].
  destruct (c =? ch "\"); [reflexivity|].
  destruct ((c <? 0x20) || (0x7E <? c)) eqn:Hrange.
  - cbn [forallb]. rewrite !hex_char_printable; [reflexivity| | | |].
    + apply N.mod_lt; lia.
    + apply N.mod_lt; lia.
    + apply N.mod_lt; lia.
    + apply N.Div0.div_lt_upper_bound; lia.
  - apply orb_false_iff in Hrange. destruct Hrange as [H1 H2].
    apply N.ltb_ge in H1, H2. simpl. rewrite andb_true_r.
    apply printable_spec. lia.
Qed.

Lemma quote_printable (s : jsstring) :
  code_units s -> forallb printable (quote s) = true.
Proof.
  intros Hs. unfold quote. cbn [forallb]. rewrite forallb_app.
  replace (printable 0x22) with true by reflexivity. simpl.
  rewrite andb_true_r.
  induction Hs as [|c s Hc _ IH]; [reflexivity|].
  simpl. rewrite forallb_app, IH, escape_char_printable by exact Hc. reflexivity.
Qed.

Lemma uint_chars_digits (d : Decimal.uint) : forallb is_digit (uint_chars d) = true.
Proof. induction d; simpl; try rewrite IHd; reflexivity. Qed.

Lemma is_digit_printable (c : char) : is_digit c = true -> printable c = true.
Proof.
  unfold is_digit. rewrite andb_true_iff, !N.leb_le, printable_spec. lia.
Qed.

Lemma decimal_printable (n : N) : forallb printable (decimal n) = true.
Proof.
  apply forallb_forall. intros c Hc. apply is_digit_printable.
  pose proof (uint_chars_digits (N.to_uint n)) as H.
  rewrite forallb_forall in H. apply H, Hc.
Qed.

Lemma encode_citation_printable (c : Citation) :
  code_units (source_text c) -> forallb printable (encode_citation c) = true.
Proof.
  intros Hc. unfold encode_citation.
  rewrite !forallb_app, decimal_printable, quote_printable by exact Hc.
  reflexivity.
Qed.

Lemma join_printable (sep : jsstring) (parts : list jsstring) :
  forallb printable sep = true ->
  Forall (fun p => forallb printable p = true) parts ->
  forallb printable (join sep parts) = true.
Proof.
  intros Hsep Hparts. destruct Hparts as [|p parts Hp Hparts]; [reflexivity|].
  simpl. rewrite forallb_app, Hp. simpl.
  induction Hparts as [|q parts Hq _ IH]; [reflexivity|].
  simpl. rewrite !forallb_app, Hsep, Hq, IH. reflexivity.
Qed.

(** An event's line is printable ASCII: it holds no newline. *)
Lemma encode_event_printable (e : StreamEvent) :
  well_formed e -> forallb printable (encode_event e) = true.
Proof.
  destruct e as [s|cs|s]; unfold encode_event, well_formed; intros H.
  - rewrite !forallb_app, quote_printable by exact H. reflexivity.
  - rewrite !forallb_app, join_printable; [reflexivity|reflexivity|].
    apply Forall_map. eapply Forall_impl; [|exact H].
    intros c Hc. apply encode_citation_printable, Hc.
  - rewrite !forallb_app, quote_printable by exact H. reflexivity.
Qed.

(** ** JSON.parse *)

Lemma skip_ws_white (s : jsstring) :
  forallb is_white_space s = true -> forallb is_white_space (skip_ws s) = true.
Proof.
  induction s as [|c s IH]; simpl; [reflexivity|].
  intros H. destruct (is_json_space c); [|exact H].
  apply andb_true_iff in H. apply IH, H.
Qed.

(** No JSON value starts with a white space character. *)
Lemma white_space_starts_nothing (c : char) :
  is_white_space c = true ->
  c <> ch "{" /\ c <> ch "[" /\ c <> 0x22 /\ c <> ch "t" /\ c <> ch "f"
  /\ c <> ch "n" /\ c <> ch "-" /\ is_digit c = false.
Proof.
  unfold is_white_space, is_digit, ch. simpl N_of_ascii.
  rewrite !orb_true_iff, andb_true_iff, andb_false_iff, !N.eqb_eq, !N.leb_le, !N.leb_gt.
  lia.
Qed.

Section Parser.
Context {E : Engine}.

Lemma parse_value_blank (fuel : nat) (s : jsstring) :
  forallb is_white_space s = true ->
  forall v rest, parse_value fuel s <> Parsed v rest.
Proof.
  intros Hs v rest. destruct fuel as [|fuel]; simpl; [discriminate|].
  apply skip_ws_white in Hs. destruct (skip_ws s) as [|c r]; [discriminate|].
  simpl in Hs. apply andb_true_iff in Hs. destruct Hs as [Hc _].
  apply white_space_starts_nothing in Hc.
  destruct Hc as (H1 & H2 & H3 & H4 & H5 & H6 & H7 & H8).
  apply N.eqb_neq in H1, H2, H3, H4, H5, H6, H7.
  rewrite H1, H2, H3, H4, H5, H6.
  unfold scan_number, scan_sign. rewrite H7. unfold scan_int.
  replace (c =? ch "0") with false.
  - rewrite H8. discriminate.
  - symmetry. apply N.eqb_neq. intros ->. discriminate H8.
Qed.

(** A line that parses is not blank: the filter of the loop keeps it. *)
Lemma JSON_parse_not_blank (line : jsstring) (v : value) :
  JSON_parse line = inr v -> negb (jsstring_eqb (trim line) []) = true.
Proof.
  intros H. apply negb_true_iff. destruct (jsstring_eqb (trim line) []) eqn:Ht; [|reflexivity].
  apply jsstring_eqb_eq, trim_nil in Ht.
  unfold JSON_parse in H.
  destruct (parse_value (2 * List.length line + 1) line) as [w r| |] eqn:Hp;
    try discriminate.
  exfalso. exact (parse_value_blank _ _ Ht _ _ Hp).
Qed.

End Parser.

(** ** The parser terminates within its bound *)

Lemma skip_ws_length (s : jsstring) : (List.length (skip_ws s) <= List.length s)%nat.
Proof.
  induction s as [|c s IH]; simpl; [lia|].
  destruct (is_json_space c); simpl; lia.
Qed.

Lemma parse_string_length (n : nat) :
  forall s str rest,
  (List.length s <= n)%nat ->
  parse_string s = Some (str, rest) -> (List.length rest < List.length s)%nat.
Proof.
  induction n as [|n IH]; intros s str rest Hn H.
  - destruct s; [discriminate|simpl in Hn; lia].
  - destruct s as [|c s1]; [discriminate|]. simpl in Hn. cbn [parse_string] in H.
    destruct (c =? 0x22).
    { injection H as _ <-. simpl. lia. }
    destruct (c =? ch "\").
    + destruct s1 as [|e s2]; [discriminate|].
      destruct (e =? ch "u").
      * destruct s2 as [|h1 [|h2 [|h3 [|h4 s3]]]]; try discriminate.
        destruct (hex_digit h1), (hex_digit h2), (hex_digit h3), (hex_digit h4);
          try discriminate.
        destruct (parse_string s3) as [[str' rest']|] eqn:Hs; [|discriminate].
        injection H as _ <-. apply IH in Hs; simpl in *; lia.
      * destruct (simple_escape e); [|discriminate].
        destruct (parse_string s2) as [[str' rest']|] eqn:Hs; [|discriminate].
        injection H as _ <-. apply IH in Hs; simpl in *; lia.
    + destruct (c <? 0x20); [discriminate|].
      destruct (parse_string s1) as [[str' rest']|] eqn:Hs; [|discriminate].
      injection H as _ <-. apply IH in Hs; simpl in *; lia.
Qed.

Lemma strip_prefix_length (word s rest : jsstring) :
  strip_prefix word s = Some rest -> (List.length rest <= List.length s)%nat.
Proof.
  revert s. induction word as [|w word IH]; intros s H; simpl in H.
  - injection H as <-. lia.
  - destruct s as [|c s]; [discriminate|]. destruct (w =? c); [|discriminate].
    apply IH in H. simpl. lia.
Qed.

Lemma take_digits_length (s ds rest : jsstring) :
  take_digits s = (ds, rest) -> (List.length rest <= List.length s)%nat.
Proof.
  revert ds rest. induction s as [|c s IH]; intros ds rest H; simpl in H.
  - injection H as _ <-. lia.
  - destruct (is_digit c).
    + destruct (take_digits s) as [ds' rest'] eqn:Hs. injection H as _ <-.
      specialize (IH _ _ eq_refl). simpl. lia.
    + injection H as _ <-. lia.
Qed.

Lemma scan_digits_length (s ds rest : jsstring) :
  scan_digits s = Some (ds, rest) -> (List.length rest <= List.length s)%nat.
Proof.
  unfold scan_digits. destruct (take_digits s) as [[|d ds'] rest'] eqn:Hs; [discriminate|].
  intros H. injection H as _ <-. eapply take_digits_length, Hs.
Qed.

Lemma scan_number_length (s lexeme rest : jsstring) :
  scan_number s = Some (lexeme, rest) -> (List.length rest < List.length s)%nat.
Proof.
  unfold scan_number. intros H.
  destruct (scan_sign s) as [sign s1] eqn:Hsign.
  assert (H1 : (List.length s1 <= List.length s)%nat).
  { unfold scan_sign in Hsign. destruct s as [|c s']; [injection Hsign as _ <-; lia|].
    destruct (c =? ch "-"); injection Hsign as _ <-; simpl; lia. }
  destruct (scan_int s1) as [[int s2]|] eqn:Hint; [|discriminate].
  assert (H2 : (List.length s2 < List.length s1)%nat).
  { unfold scan_int in Hint. destruct s1 as [|c s']; [discriminate|].
    destruct (c =? ch "0"); [injection Hint as _ <-; simpl; lia|].
    destruct (is_digit c); [|discriminate].
    destruct (take_digits s') as [ds r] eqn:Hd. injection Hint as _ <-.
    apply take_digits_length in Hd. simpl. lia. }
  destruct (scan_frac s2) as [[frac s3]|] eqn:Hfrac; [|discriminate].
  assert (H3 : (List.length s3 <= List.length s2)%nat).
  { unfold scan_frac in Hfrac. destruct s2 as [|c s']; [injection Hfrac as _ <-; lia|].
    destruct (c =? ch ".").
    - destruct (scan_digits s') as [[ds r]|] eqn:Hd; [|discriminate].
      injection Hfrac as _ <-. apply scan_digits_length in Hd. simpl. lia.
    - injection Hfrac as _ <-. lia. }
  destruct (scan_exp s3) as [[exp s4]|] eqn:Hexp; [|discriminate].
  assert (H4 : (List.length s4 <= List.length s3)%nat).
  { unfold scan_exp in Hexp. destruct s3 as [|c s']; [injection Hexp as _ <-; lia|].
    destruct ((c =? ch "e") || (c =? ch "E")).
    - destruct s' as [|d t].
      + discriminate.
      + destruct ((d =? ch "+") || (d =? ch "-")).
        * destruct (scan_digits t) as [[ds r]|] eqn:Hd; [|discriminate].
          injection Hexp as _ <-. apply scan_digits_length in Hd. simpl. lia.
        * destruct (scan_digits (d :: t)) as [[ds r]|] eqn:Hd; [|discriminate].
          injection Hexp as _ <-. apply scan_digits_length in Hd. simpl in *. lia.
    - injection Hexp as _ <-. lia. }
  injection H as _ <-. lia.
Qed.

Section Fuel.
Context {E : Engine}.

Lemma parse_shrinks (fuel : nat) :
  shrinks (parse_value fuel) /\ shrinks (parse_elements fuel) /\ shrinks (parse_members fuel).
Proof.
  induction fuel as [|fuel (IHv & IHe & IHm)].
  - repeat split; intros s a rest H; discriminate H.
  - split; [|split]; intros s a rest H.
    + cbn [parse_value] in H.
      pose proof (skip_ws_length s) as Hws.
      destruct (skip_ws s) as [|c r]; [discriminate|]. simpl in Hws.
      destruct (c =? ch "{").
      { pose proof (skip_ws_length r) as Hws'.
        destruct (skip_ws r) as [|c' r']; [discriminate|]. simpl in Hws'.
        destruct (c' =? ch "}"); [injection H as _ <-; lia|].
        destruct (parse_members fuel (c' :: r')) as [ms rest'| |] eqn:Hm; try discriminate.
        injection H as _ <-. apply IHm in Hm. simpl in Hm. lia. }
      destruct (c =? ch "[").
      { pose proof (skip_ws_length r) as Hws'.
        destruct (skip_ws r) as [|c' r']; [discriminate|]. simpl in Hws'.
        destruct (c' =? ch "]"); [injection H as _ <-; lia|].
        destruct (parse_elements fuel (c' :: r')) as [vs rest'| |] eqn:He; try discriminate.
        injection H as _ <-. apply IHe in He. simpl in He. lia. }
      destruct (c =? 0x22).
      { destruct (parse_string r) as [[str rest']|] eqn:Hs; [|discriminate].
        injection H as _ <-. apply (parse_string_length _ _ _ _ (le_n _)) in Hs. lia. }
      destruct (c =? ch "t").
      { destruct (strip_prefix (js "rue") r) as [rest'|] eqn:Hp; [|discriminate].
        injection H as _ <-. apply strip_prefix_length in Hp. lia. }
      destruct (c =? ch "f").
      { destruct (strip_prefix (js "alse") r) as [rest'|] eqn:Hp; [|discriminate].
        injection H as _ <-. apply strip_prefix_length in Hp. lia. }
      destruct (c =? ch "n").
      { destruct (strip_prefix (js "ull") r) as [rest'|] eqn:Hp; [|discriminate].
        injection H as _ <-. apply strip_prefix_length in Hp. lia. }
      destruct (scan_number (c :: r)) as [[lexeme rest']|] eqn:Hn; [|discriminate].
      injection H as _ <-. apply scan_number_length in Hn. simpl in Hn. lia.
    + cbn [parse_elements] in H.
      destruct (parse_value fuel s) as [v r| |] eqn:Hv; try discriminate.
      apply IHv in Hv. pose proof (skip_ws_length r) as Hws.
      destruct (skip_ws r) as [|c r']; [discriminate|]. simpl in Hws.
      destruct (c =? ch ",").
      { destruct (parse_elements fuel r') as [vs rest'| |] eqn:He; try discriminate.
        injection H as _ <-. apply IHe in He. lia. }
      destruct (c =? ch "]"); [|discriminate].
      injection H as _ <-. lia.
    + cbn [parse_members] in H.
      pose proof (skip_ws_length s) as Hws.
      destruct (skip_ws s) as [|q r0]; [discriminate|]. simpl in Hws.
      destruct (q =? 0x22); [|discriminate].
      destruct (parse_string r0) as [[key r1]|] eqn:Hs; [|discriminate].
      apply (parse_string_length _ _ _ _ (le_n _)) in Hs.
      pose proof (skip_ws_length r1) as Hws1.
      destruct (skip_ws r1) as [|colon r2]; [discriminate|]. simpl in Hws1.
      destruct (colon =? ch ":"); [|discriminate].
      destruct (parse_value fuel r2) as [v r3| |] eqn:Hv; try discriminate.
      apply IHv in Hv. pose proof (skip_ws_length r3) as Hws3.
      destruct (skip_ws r3) as [|c r4]; [discriminate|]. simpl in Hws3.
      destruct (c =? ch ",").
      { destruct (parse_members fuel r4) as [ms rest'| |] eqn:Hm; try discriminate.
        injection H as _ <-. apply IHm in Hm. lia. }
      destruct (c =? ch "}"); [|discriminate].
      injection H as _ <-. lia.
Qed.

(** With a bound above twice the length of the text the parser never
    stops for want of fuel: it returns a value or rejects the text. *)
Lemma parse_fuel_enough (fuel : nat) :
  (forall s, (2 * List.length s < fuel)%nat -> parse_value fuel s <> OutOfFuel)
  /\ (forall s, (2 * List.length s + 1 < fuel)%nat -> parse_elements fuel s <> OutOfFuel)
  /\ (forall s, (2 * List.length s + 1 < fuel)%nat -> parse_members fuel s <> OutOfFuel).
Proof.
  induction fuel as [|fuel (IHv & IHe & IHm)].
  - repeat split; intros s H; lia.
  - destruct (parse_shrinks fuel) as (Sv & Se & Sm).
    split; [|split]; intros s Hs.
    + cbn [parse_value].
      pose proof (skip_ws_length s) as Hws.
      destruct (skip_ws s) as [|c r]; [discriminate|]. simpl in Hws.
      destruct (c =? ch "{").
      { pose proof (skip_ws_length r) as Hws'.
        destruct (skip_ws r) as [|c' r']; [discriminate|]. simpl in Hws'.
        destruct (c' =? ch "}"); [discriminate|].
        destruct (parse_members fuel (c' :: r')) as [ms rest'| |] eqn:Hm; try discriminate.
        apply IHm in Hm; [contradiction|]. simpl. lia. }
      destruct (c =? ch "[").
      { pose proof (skip_ws_length r) as Hws'.
        destruct (skip_ws r) as [|c' r']; [discriminate|]. simpl in Hws'.
        destruct (c' =? ch "]"); [discriminate|].
        destruct (parse_elements fuel (c' :: r')) as [vs rest'| |] eqn:He; try discriminate.
        apply IHe in He; [contradiction|]. simpl. lia. }
      destruct (c =? 0x22); [destruct (parse_string r) as [[? ?]|]; discriminate|].
      destruct (c =? ch "t"); [destruct (strip_prefix (js "rue") r); discriminate|].
      destruct (c =? ch "f"); [destruct (strip_prefix (js "alse") r); discriminate|].
      destruct (c =? ch "n"); [destruct (strip_prefix (js "ull") r); discriminate|].
      destruct (scan_number (c :: r)) as [[? ?]|]; discriminate.
    + cbn [parse_elements].
      destruct (parse_value fuel s) as [v r| |] eqn:Hv; try discriminate.
      * apply Sv in Hv. pose proof (skip_ws_length r) as Hws.
        destruct (skip_ws r) as [|c r']; [discriminate|]. simpl in Hws.
        destruct (c =? ch ",").
        { destruct (parse_elements fuel r') as [vs rest'| |] eqn:He; try discriminate.
          apply IHe in He; [contradiction|]. lia. }
        destruct (c =? ch "]"); discriminate.
      * apply IHv in Hv; [contradiction|]. lia.
    + cbn [parse_members].
      pose proof (skip_ws_length s) as Hws.
      destruct (skip_ws s) as [|q r0]; [discriminate|]. simpl in Hws.
      destruct (q =? 0x22); [|discriminate].
      destruct (parse_string r0) as [[key r1]|] eqn:Hstr; [|discriminate].
      apply (parse_string_length _ _ _ _ (le_n _)) in Hstr.
      pose proof (skip_ws_length r1) as Hws1.
      destruct (skip_ws r1) as [|colon r2]; [discriminate|]. simpl in Hws1.
      destruct (colon =? ch ":"); [|discriminate].
      destruct (parse_value fuel r2) as [v r3| |] eqn:Hv; try discriminate.
      * apply Sv in Hv. pose proof (skip_ws_length r3) as Hws3.
        destruct (skip_ws r3) as [|c r4]; [discriminate|]. simpl in Hws3.
        destruct (c =? ch ",").
        { destruct (parse_members fuel r4) as [ms rest'| |] eqn:Hm; try discriminate.
          apply IHm in Hm; [contradiction|]. lia. }
        destruct (c =? ch "}"); discriminate.
      * apply IHv in Hv; [contradiction|]. lia.
Qed.

(** [JSON.parse] is total: it returns a value, or throws a [SyntaxError]
    because the text is not JSON, never because the bound was too small. *)
Lemma JSON_parse_total (text : jsstring) :
  parse_value (2 * List.length text + 1) text <> OutOfFuel.
Proof. apply parse_fuel_enough. lia. Qed.

End Fuel.

(** ** The lines of the events parse to the events *)

Ltac eval_ch :=
  repeat match goal with
         | |- context [ch ?a] => let v := eval vm_compute in (ch a) in change (ch a) with v
         end.

Lemma hex_digit_hex_char (d : N) : d < 16 -> hex_digit (hex_char d) = Some d.
Proof.
  intros Hd. unfold hex_char, hex_digit, is_digit.
  destruct (N.ltb_spec d 10).
  - replace ((0x30 <=? 0x30 + d) && (0x30 + d <=? 0x39)) with true.
    + f_equal. lia.
    + symmetry. apply andb_true_iff. split; apply N.leb_le; lia.
  - replace ((0x30 <=? 0x61 + (d - 10)) && (0x61 + (d - 10) <=? 0x39)) with false.
    + replace ((0x41 <=? 0x61 + (d - 10)) && (0x61 + (d - 10) <=? 0x46)) with false.
      * replace ((0x61 <=? 0x61 + (d - 10)) && (0x61 + (d - 10) <=? 0x66)) with true.
        -- f_equal. lia.
        -- symmetry. apply andb_true_iff. split; apply N.leb_le; lia.
      * symmetry. apply andb_false_iff. right. apply N.leb_gt. lia.
    + symmetry. apply andb_false_iff. right. apply N.leb_gt. lia.
Qed.

Lemma hex_digits_value (c : char) :
  c < 0x10000 ->
  ((c / 4096 * 16 + (c / 256) mod 16) * 16 + (c / 16) mod 16) * 16 + c mod 16 = c.
Proof.
  intros Hc.
  pose proof (N.div_mod c 16 ltac:(lia)).
  pose proof (N.div_mod (c / 16) 16 ltac:(lia)).
  pose proof (N.div_mod (c / 256) 16 ltac:(lia)).
  assert (c / 256 = c / 16 / 16) by (rewrite N.Div0.div_div; reflexivity).
  assert (c / 4096 = c / 256 / 16) by (rewrite N.Div0.div_div; reflexivity).
  lia.
Qed.

Lemma parse_string_escape (c : char) (s' : jsstring) :
  c < 0x10000 ->
  parse_string (escape_char c ++ s')
  = match parse_string s' with
    | Some (str, rest) => Some (c :: str, rest)
    | None => None
    end.
Proof.
  intros Hc. unfold escape_char. eval_ch.
  destruct (N.eqb_spec c 0x22) as [->|Hq]; [reflexivity|].
  destruct (N.eqb_spec c 92) as [->|Hb]; [reflexivity|].
  destruct ((c <? 0x20) || (0x7E <? c)) eqn:Hrange.
  - cbn [app parse_string]. eval_ch. cbn [N.eqb Pos.eqb].
    rewrite !hex_digit_hex_char.
    + rewrite hex_digits_value by exact Hc. reflexivity.
    + apply N.mod_lt; lia.
    + apply N.mod_lt; lia.
    + apply N.mod_lt; lia.
    + apply N.Div0.div_lt_upper_bound; lia.
  - apply orb_false_iff in Hrange. destruct Hrange as [H1 H2].
    cbn [app parse_string]. eval_ch.
    apply N.eqb_neq in Hq, Hb. rewrite Hq, Hb, H1. reflexivity.
Qed.

Lemma parse_string_quote (s rest : jsstring) :
  code_units s ->
  parse_string (flat_map escape_char s ++ 0x22 :: rest) = Some (s, rest).
Proof.
  induction 1 as [|c s Hc _ IH]; [reflexivity|].
  cbn [flat_map]. rewrite <- app_assoc, parse_string_escape by exact Hc.
  rewrite IH. reflexivity.
Qed.

Lemma take_digits_app (ds rest : jsstring) :
  forallb is_digit ds = true ->
  match rest with c :: _ => is_digit c = false | [] => True end ->
  take_digits (ds ++ rest) = (ds, rest).
Proof.
  intros Hds Hrest. induction ds as [|d ds IH]; simpl.
  - destruct rest as [|c r]; [reflexivity|]. simpl. rewrite Hrest. reflexivity.
  - simpl in Hds. apply andb_true_iff in Hds. destruct Hds as [Hd Hds].
    rewrite Hd, (IH Hds). reflexivity.
Qed.

(** The decimal digits of a number: one zero, or digits that do not start with zero. *)
Lemma decimal_shape (n : N) :
  exists d ds, decimal n = d :: ds /\ is_digit d = true /\ forallb is_digit ds = true
               /\ (d = ch "0" -> ds = []).
Proof.
  unfold decimal.
  pose proof (uint_chars_digits (N.to_uint n)) as Hdig.
  assert (Hnorm : Decimal.unorm (N.to_uint n) = N.to_uint n).
  { rewrite <- (DecimalN.Unsigned.of_to n) at 2. symmetry. apply DecimalN.Unsigned.to_of. }
  destruct (N.to_uint n) as [|u|u|u|u|u|u|u|u|u|u] eqn:Hu;
    try (eexists _, _; split; [reflexivity|]; split; [reflexivity|];
         split; [exact Hdig|]; intros H; discriminate H).
  - discriminate Hnorm.
  - exists (ch "0"), (uint_chars u). split; [reflexivity|]. split; [reflexivity|].
    split; [exact Hdig|]. intros _.
    destruct u as [|u|u|u|u|u|u|u|u|u|u]; try reflexivity; exfalso.
    all: rewrite DecimalFacts.unorm_D0 in Hnorm.
    all: match type of Hnorm with
         | Decimal.unorm ?v = _ =>
             pose proof (DecimalFacts.nb_digits_unorm v ltac:(discriminate)) as Hle
         end.
    all: rewrite Hnorm in Hle; simpl in Hle; lia.
Qed.

Ltac same_text :=
  unfold quote, quoted; rewrite <- ?app_assoc; cbn [app]; rewrite <- ?app_assoc;
  reflexivity.

Lemma quote_app (s rest : jsstring) : quote s ++ rest = quoted s rest.
Proof. unfold quote, quoted. simpl. rewrite <- app_assoc. reflexivity. Qed.

Lemma digit_starts_number (d : char) :
  is_digit d = true ->
  is_json_space d = false /\ d <> ch "{" /\ d <> ch "[" /\ d <> 0x22 /\ d <> ch "t"
  /\ d <> ch "f" /\ d <> ch "n" /\ d <> ch "-".
Proof.
  unfold is_digit, is_json_space, ch. simpl N_of_ascii.
  rewrite andb_true_iff, !orb_false_iff, !N.eqb_neq, !N.leb_le. lia.
Qed.

Lemma scan_number_decimal (n : N) (r : jsstring) :
  scan_number (decimal n ++ ch "," :: r) = Some (decimal n, ch "," :: r).
Proof.
  destruct (decimal_shape n) as (d & ds & -> & Hd & Hds & Hzero).
  destruct (digit_starts_number d Hd) as (_ & _ & _ & _ & _ & _ & _ & Hminus).
  unfold scan_number, scan_sign. cbn [app].
  apply N.eqb_neq in Hminus. rewrite Hminus. unfold scan_int.
  destruct (N.eqb_spec d (ch "0")) as [H0|H0].
  - rewrite (Hzero H0). reflexivity.
  - rewrite Hd, take_digits_app; [|exact Hds|reflexivity].
    unfold scan_frac, scan_exp. eval_ch. cbn. rewrite !app_nil_r. reflexivity.
Qed.

Section Roundtrip.
Context {E : Engine}.

Lemma parse_value_decimal (fuel : nat) (n : N) (r : jsstring) :
  parse_value (S fuel) (decimal n ++ ch "," :: r)
  = Parsed (VNum (number_of_literal (decimal n))) (ch "," :: r).
Proof.
  pose proof (scan_number_decimal n r) as Hscan.
  destruct (decimal_shape n) as (d & ds & Heq & Hd & _).
  rewrite Heq in *.
  destruct (digit_starts_number d Hd) as (Hs & H1 & H2 & H3 & H4 & H5 & H6 & _).
  apply N.eqb_neq in H1, H2, H3, H4, H5, H6.
  cbn [parse_value app skip_ws]. rewrite Hs.
  cbn [app] in Hscan.
  rewrite H1, H2, H3, H4, H5, H6, Hscan. reflexivity.
Qed.

Lemma parse_value_quoted (fuel : nat) (s rest : jsstring) :
  code_units s -> parse_value (S fuel) (quoted s rest) = Parsed (VStr s) rest.
Proof.
  intros Hs. unfold quoted. cbn [parse_value skip_ws]. unfold ch. cbn.
  rewrite parse_string_quote by exact Hs. reflexivity.
Qed.

Lemma parse_members_last (fuel : nat) (key text rest : jsstring) (v : value) :
  code_units key ->
  parse_value fuel text = Parsed v (ch "}" :: rest) ->
  parse_members (S fuel) (quoted key (ch ":" :: text)) = Parsed [(key, v)] rest.
Proof.
  intros Hk Hv. unfold quoted. cbn [parse_members skip_ws]. unfold ch. cbn.
  rewrite parse_string_quote by exact Hk. cbn.
  unfold ch in Hv. cbn in Hv. rewrite Hv. reflexivity.
Qed.

Lemma parse_members_more (fuel : nat) (key text more rest : jsstring) (v : value)
    (ms : list (jsstring * value)) :
  code_units key ->
  parse_value fuel text = Parsed v (ch "," :: more) ->
  parse_members fuel more = Parsed ms rest ->
  parse_members (S fuel) (quoted key (ch ":" :: text)) = Parsed ((key, v) :: ms) rest.
Proof.
  intros Hk Hv Hms. unfold quoted. cbn [parse_members skip_ws]. unfold ch. cbn.
  rewrite parse_string_quote by exact Hk. cbn.
  unfold ch in Hv. cbn in Hv. rewrite Hv. cbn. rewrite Hms. reflexivity.
Qed.

Lemma parse_value_object (fuel : nat) (s t rest : jsstring) (ms : list (jsstring * value)) :
  parse_members fuel (quoted s t) = Parsed ms rest ->
  parse_value (S fuel) (ch "{" :: quoted s t) = Parsed (VObj ms) rest.
Proof.
  intros Hms. unfold quoted in *. cbn [parse_value skip_ws]. unfold ch. cbn.
  rewrite Hms. reflexivity.
Qed.

Lemma parse_elements_last (fuel : nat) (text rest : jsstring) (v : value) :
  parse_value fuel text = Parsed v (ch "]" :: rest) ->
  parse_elements (S fuel) text = Parsed [v] rest.
Proof.
  intros Hv. cbn [parse_elements]. rewrite Hv. reflexivity.
Qed.

Lemma parse_elements_more (fuel : nat) (text more rest : jsstring) (v : value)
    (vs : list value) :
  parse_value fuel text = Parsed v (ch "," :: more) ->
  parse_elements fuel more = Parsed vs rest ->
  parse_elements (S fuel) text = Parsed (v :: vs) rest.
Proof.
  intros Hv Hvs. cbn [parse_elements]. rewrite Hv. unfold ch. cbn.
  rewrite Hvs. reflexivity.
Qed.

Lemma parse_value_array (fuel : nat) (t rest : jsstring) (vs : list value) :
  parse_elements fuel (ch "{" :: t) = Parsed vs rest ->
  parse_value (S fuel) (ch "[" :: ch "{" :: t) = Parsed (VArr vs) rest.
Proof.
  intros Hvs. cbn [parse_value skip_ws]. unfold ch in *. cbn in *.
  rewrite Hvs. reflexivity.
Qed.

(** The text of a citation, followed by [rest]. *)
Lemma encode_citation_app (c : Citation) (rest : jsstring) :
  encode_citation c ++ rest
  = ch "{" :: quoted (js "id")
      (ch ":" :: decimal (id c) ++ ch "," :: quoted (js "source_text")
         (ch ":" :: quoted (source_text c) (ch "}" :: rest))).
Proof.
  unfold encode_citation, quote, quoted.
  rewrite <- ?app_assoc. cbn [app]. rewrite <- ?app_assoc. reflexivity.
Qed.

Lemma code_units_js (s : string) :
  forallb (fun c => c <? 0x10000) (js s) = true -> code_units (js s).
Proof.
  intros H. apply Forall_forall. intros c Hc.
  rewrite forallb_forall in H. apply N.ltb_lt, H, Hc.
Qed.

Lemma parse_value_citation (fuel : nat) (c : Citation) (rest : jsstring) :
  code_units (source_text c) ->
  parse_value (4 + fuel)%nat (encode_citation c ++ rest) = Parsed (citation_value c) rest.
Proof.
  intros Hc. rewrite encode_citation_app.
  apply parse_value_object.
  eapply parse_members_more.
  - apply code_units_js. reflexivity.
  - apply parse_value_decimal.
  - apply parse_members_last.
    + apply code_units_js. reflexivity.
    + apply parse_value_quoted, Hc.
Qed.

Lemma parse_elements_citations (cs : list Citation) :
  forall (c : Citation) (fuel : nat) (rest : jsstring),
  Forall (fun c => code_units (source_text c)) (c :: cs) ->
  parse_elements (List.length cs + 5 + fuel)%nat
    (join (js ",") (map encode_citation (c :: cs)) ++ ch "]" :: rest)
  = Parsed (map citation_value (c :: cs)) rest.
Proof.
  induction cs as [|c' cs IH]; intros c fuel rest Hwf.
  - apply Forall_inv in Hwf. cbn [List.length Nat.add map join flat_map].
    rewrite List.app_nil_r. apply parse_elements_last.
    apply (parse_value_citation fuel), Hwf.
  - pose proof (Forall_inv Hwf) as Hc. apply Forall_inv_tail in Hwf.
    specialize (IH c' fuel rest Hwf).
    replace (join (js ",") (map encode_citation (c :: c' :: cs)) ++ ch "]" :: rest)
      with (encode_citation c
              ++ ch "," :: (join (js ",") (map encode_citation (c' :: cs)) ++ ch "]" :: rest))
      by (cbn [map join flat_map]; rewrite <- !app_assoc; reflexivity).
    cbn [List.length Nat.add].
    eapply parse_elements_more; [|exact IH].
    replace (List.length cs + 5 + fuel)%nat with (4 + (List.length cs + 1 + fuel))%nat by lia.
    apply parse_value_citation, Hc.
Qed.

Lemma parse_value_event (e : StreamEvent) (fuel : nat) (rest : jsstring) :
  well_formed e ->
  (event_fuel e <= fuel)%nat ->
  parse_value fuel (encode_event e ++ rest) = Parsed (event_value e) rest.
Proof.
  intros Hwf Hfuel.
  replace fuel with (event_fuel e + (fuel - event_fuel e))%nat by lia.
  generalize (fuel - event_fuel e)%nat. clear fuel Hfuel. intros fuel.
  destruct e as [s|cs|s]; cbn [event_fuel encode_event event_value well_formed Nat.add] in *.
  - replace ((json "{'type':'chunk','data':" ++ quote s ++ js "}") ++ rest)
      with (ch "{" :: quoted (js "type")
              (ch ":" :: quoted (js "chunk")
                 (ch "," :: quoted (js "data") (ch ":" :: quoted s (ch "}" :: rest)))))
      by same_text.
    apply parse_value_object. eapply parse_members_more.
    + apply code_units_js. reflexivity.
    + apply parse_value_quoted. apply code_units_js. reflexivity.
    + apply parse_members_last.
      * apply code_units_js. reflexivity.
      * apply parse_value_quoted, Hwf.
  - destruct cs as [|c cs].
    + reflexivity.
    + replace ((json "{'type':'citations','data':["
                  ++ join (js ",") (map encode_citation (c :: cs)) ++ js "]}") ++ rest)
        with (ch "{" :: quoted (js "type")
                (ch ":" :: quoted (js "citations")
                   (ch "," :: quoted (js "data")
                      (ch ":" :: ch "[" ::
                         (join (js ",") (map encode_citation (c :: cs))
                            ++ ch "]" :: ch "}" :: rest)))))
        by same_text.
      replace (S (S (S (S (S (S (S (S (List.length (c :: cs) + fuel)))))))))
        with (S (S (S (S (List.length cs + 5 + fuel)))))%nat by (simpl; lia).
      apply parse_value_object. eapply parse_members_more.
      * apply code_units_js. reflexivity.
      * apply parse_value_quoted. apply code_units_js. reflexivity.
      * apply parse_members_last.
        -- apply code_units_js. reflexivity.
        -- pose proof (parse_elements_citations cs c fuel (ch "}" :: rest) Hwf) as H.
           cbn [map join] in *. rewrite <- app_assoc, encode_citation_app in *.
           apply parse_value_array. exact H.
  - replace ((json "{'type':'error','data':" ++ quote s ++ js "}") ++ rest)
      with (ch "{" :: quoted (js "type")
              (ch ":" :: quoted (js "error")
                 (ch "," :: quoted (js "data") (ch ":" :: quoted s (ch "}" :: rest)))))
      by same_text.
    apply parse_value_object. eapply parse_members_more.
    + apply code_units_js. reflexivity.
    + apply parse_value_quoted. apply code_units_js. reflexivity.
    + apply parse_members_last.
      * apply code_units_js. reflexivity.
      * apply parse_value_quoted, Hwf.
Qed.

Ltac eval_lengths :=
  repeat match goal with
         | |- context [List.length (json ?s)] =>
             let v := eval vm_compute in (List.length (json s)) in
             change (List.length (json s)) with v
         | |- context [List.length (js ?s)] =>
             let v := eval vm_compute in (List.length (js s)) in
             change (List.length (js s)) with v
         end.

Lemma length_comma_separated (parts : list jsstring) :
  (List.length parts <= List.length (flat_map (fun q => js "," ++ q) parts))%nat.
Proof.
  induction parts as [|p parts IH]; [apply le_n|].
  cbn [flat_map List.length]. rewrite !length_app. eval_lengths. lia.
Qed.

Lemma event_fuel_le (e : StreamEvent) :
  (event_fuel e <= 2 * List.length (encode_event e) + 1)%nat.
Proof.
  destruct e as [s|cs|s]; unfold event_fuel, encode_event.
  - rewrite length_app. eval_lengths. lia.
  - rewrite length_app. eval_lengths. destruct cs as [|c cs]; [simpl; lia|].
    cbn [map join List.length]. rewrite !length_app.
    pose proof (length_comma_separated (map encode_citation cs)) as H.
    rewrite length_map in H. lia.
  - rewrite length_app. eval_lengths. lia.
Qed.

(** An event's line parses to the event. *)
Lemma JSON_parse_event (e : StreamEvent) :
  well_formed e -> JSON_parse (encode_event e) = inr (event_value e).
Proof.
  intros Hwf. unfold JSON_parse.
  rewrite <- (List.app_nil_r (encode_event e)) at 2.
  rewrite (parse_value_event e _ [] Hwf (event_fuel_le e)). reflexivity.
Qed.

End Roundtrip.


(** ** Effects *)

Section Handlers.
Context {E : Engine}.

Lemma run_app (st : state) (t u : list effect) : run st (t ++ u) = run (run st t) u.
Proof. apply fold_left_app. Qed.

Lemma bind_perform {B} (e : effect) (k : unit -> M B) :
  bind (perform e) k = (e :: fst (k tt), snd (k tt)).
Proof. unfold bind, perform. destruct (k tt); reflexivity. Qed.

Lemma bind_returns {A B} (t : list effect) (a : A) (k : A -> M B) :
  bind (t, inr a) k = (t ++ fst (k a), snd (k a)).
Proof. unfold bind. destruct (k a); reflexivity. Qed.

Lemma bind_throws {A B} (t : list effect) (e : exn) (k : A -> M B) :
  bind (t, inl e) k = (t, inl e).
Proof. reflexivity. Qed.

(** A record is dispatched on its [type] alone and passes its [data] on. *)
Lemma dispatch_get (parsed type data : value) :
  get parsed (js "type") = inr type ->
  get parsed (js "data") = inr data ->
  dispatch parsed = (dispatch_on_type type data, inr tt).
Proof.
  intros Ht Hd. unfold dispatch, dispatch_on_type. rewrite Ht, Hd.
  unfold lift, bind, perform, ret.
  destruct (is_string type (js "chunk")); [reflexivity|].
  destruct (is_string type (js "citations")); [reflexivity|].
  destruct (is_string type (js "error")); reflexivity.
Qed.

Lemma dispatch_event (e : StreamEvent) :
  dispatch (event_value e) = ([effect_of_event e], inr tt).
Proof. destruct e; reflexivity. Qed.

Lemma for_of_cons {A} (x : A) (xs : list A) (f : A -> M unit) :
  for_of (x :: xs) f = f x ;; for_of xs f.
Proof. reflexivity. Qed.

Lemma process_line_event (line : jsstring) (e : StreamEvent) :
  JSON_parse line = inr (event_value e) ->
  process_line line = ([effect_of_event e], inr tt).
Proof.
  intros H. unfold process_line. rewrite H. unfold lift.
  rewrite bind_returns, dispatch_event. reflexivity.
Qed.

Lemma no_newline_In (line : jsstring) : no_newline line = true -> ~ In 0xA line.
Proof.
  unfold no_newline. rewrite forallb_forall. intros H Hin.
  apply H in Hin. rewrite N.eqb_refl in Hin. discriminate.
Qed.

(** The lines of a piece that holds whole records are the records. *)
Lemma lines_of_records (lines : list jsstring) :
  Forall (fun l => no_newline l = true /\ negb (jsstring_eqb (trim l) []) = true) lines ->
  lines_of (flat_map (fun l => l ++ [0xA]) lines) = lines.
Proof.
  intros H. unfold lines_of. rewrite split_lines.
  - rewrite filter_app. simpl. rewrite app_nil_r.
    apply forallb_filter_id. apply forallb_forall. intros l Hl.
    rewrite Forall_forall in H. apply H, Hl.
  - eapply Forall_impl; [|exact H]. intros l [Hl _]. apply no_newline_In, Hl.
Qed.

(** The lines of whole records are processed as their events, in order. *)
Lemma for_of_records (records : list (jsstring * StreamEvent)) :
  Forall (fun r => no_newline (fst r) = true
                   /\ JSON_parse (fst r) = inr (event_value (snd r))) records ->
  for_of (map fst records) process_line = (map effect_of_event (map snd records), inr tt).
Proof.
  induction 1 as [|[line e] records [_ Hparse] _ IH]; [reflexivity|].
  simpl in Hparse. simpl map. rewrite for_of_cons, (process_line_event _ _ Hparse), bind_returns, IH.
  reflexivity.
Qed.

Lemma process_piece_records (value : list byte) (records : list (jsstring * StreamEvent)) :
  delivers_records value records ->
  process_piece value = (map effect_of_event (map snd records), inr tt).
Proof.
  intros [Hdec Hrec]. unfold process_piece. rewrite Hdec.
  replace (flat_map (fun r => fst r ++ [0xA]) records)
    with (flat_map (fun l => l ++ [0xA]) (map fst records))
    by (rewrite !flat_map_concat_map, map_map; reflexivity).
  rewrite lines_of_records.
  - apply for_of_records, Hrec.
  - apply Forall_map. eapply Forall_impl; [|exact Hrec].
    intros [line e] [Hnl Hparse]. split; [exact Hnl|].
    eapply JSON_parse_not_blank, Hparse.
Qed.

Lemma read_loop_delivered (value : list byte) (rest : stream) :
  read_loop (delivered value rest)
  = perform reader_read ;; process_piece value ;; read_loop rest.
Proof. reflexivity. Qed.

(** Reading a stream of pieces that hold whole records: each read is
    followed by the events of its piece, and the loop ends normally. *)
Lemma read_loop_records (pieces : list (list byte * list (jsstring * StreamEvent))) :
  Forall (fun p => delivers_records (fst p) (snd p)) pieces ->
  read_loop (stream_of (map fst pieces))
  = (flat_map (fun p => piece_trace (map snd (snd p))) pieces ++ [reader_read], inr tt).
Proof.
  induction 1 as [|[value records] pieces Hp _ IH]; [reflexivity|].
  simpl in Hp. simpl map. simpl stream_of. fold (stream_of (map fst pieces)).
  rewrite read_loop_delivered, bind_perform.
  rewrite (process_piece_records _ _ Hp), bind_returns, IH.
  cbn [fst snd flat_map]. unfold piece_trace. rewrite <- app_assoc. reflexivity.
Qed.

Lemma bind_assoc {A B C} (m : M A) (f : A -> M B) (g : B -> M C) :
  bind (bind m f) g = bind m (fun a => bind (f a) g).
Proof.
  destruct m as [t [e|a]]; [reflexivity|].
  unfold bind at 2 3. destruct (f a) as [t1 [e1|b]]; [reflexivity|].
  simpl. destruct (g b) as [t2 r2]. rewrite app_assoc. reflexivity.
Qed.

Lemma for_of_app {A} (xs ys : list A) (f : A -> M unit) :
  for_of (xs ++ ys) f = for_of xs f ;; for_of ys f.
Proof.
  induction xs as [|x xs IH]; simpl.
  - unfold ret, bind. destruct (for_of ys f); reflexivity.
  - rewrite IH, bind_assoc. reflexivity.
Qed.

Lemma process_line_get (line : jsstring) (parsed type data : value) :
  JSON_parse line = inr parsed ->
  get parsed (js "type") = inr type ->
  get parsed (js "data") = inr data ->
  process_line line = (dispatch_on_type type data, inr tt).
Proof.
  intros Hp Ht Hd. unfold process_line. rewrite Hp. unfold lift.
  rewrite bind_returns, (dispatch_get _ _ _ Ht Hd). reflexivity.
Qed.

(** [prev + data] for a string [data]. *)
Lemma js_add_string (prev : value) (s : jsstring) :
  js_add prev (VStr s) = VStr (ToString prev ++ s).
Proof. destruct prev as [| |[]| | | |]; reflexivity. Qed.

Lemma handleQuery_ok (st : state) (body : stream) :
  handleQuery st (Fulfilled {| query_ok := true; query_body := body |})
  = resets ++ query_request st
      :: try_catch_finally (read_loop body)
           (fun err => [setError (VStr (message err))]) [setIsLoading false].
Proof.
  unfold handleQuery, await_fetch. rewrite bind_assoc, bind_perform.
  cbn [fst snd ret bind negb query_ok query_body app].
  destruct (read_loop body) as [t [e|[]]]; reflexivity.
Qed.

(** ** The answer is a string while the stream is read *)

Lemma bind_trace {A B} (P : effect -> Prop) (m : M A) (k : A -> M B) :
  Forall P (fst m) -> (forall a, Forall P (fst (k a))) -> Forall P (fst (bind m k)).
Proof.
  intros Hm Hk. destruct m as [t [e|a]]; [exact Hm|].
  unfold bind. specialize (Hk a). destruct (k a) as [t' r].
  apply Forall_app. split; assumption.
Qed.

Lemma lift_trace {A} (P : effect -> Prop) (r : result A) : Forall P (fst (lift r)).
Proof. constructor. Qed.

Lemma dispatch_trace (parsed : value) :
  Forall keeps_answer_a_string (fst (dispatch parsed)).
Proof.
  unfold dispatch.
  repeat first
    [ apply bind_trace; [apply lift_trace|intros ?]
    | match goal with |- context [if ?b then _ else _] => destruct b end
    | (constructor; [exact I|constructor])
    | constructor ].
Qed.

Lemma read_loop_trace (body : stream) :
  Forall keeps_answer_a_string (fst (read_loop body)).
Proof.
  induction body as [|piece rest IH|err]; cbn [read_loop].
  - repeat constructor.
  - apply bind_trace; [repeat constructor|intros _].
    apply bind_trace; [|intros _; exact IH].
    unfold process_piece. induction (lines_of (TextDecoder_decode piece)) as [|l ls IHl].
    + constructor.
    + cbn [for_of]. apply bind_trace; [|intros _; exact IHl].
      unfold process_line. apply bind_trace; [apply lift_trace|intros v].
      apply dispatch_trace.
  - repeat constructor.
Qed.

(** While the stream is read the answer is a string. *)
Lemma answer_stays_string (t : list effect) (st : state) :
  Forall keeps_answer_a_string t ->
  (exists s, answer st = VStr s) -> exists s, answer (run st t) = VStr s.
Proof.
  intros Ht. revert st. induction Ht as [|e t He _ IH]; intros st Hs; [exact Hs|].
  simpl. apply IH. destruct Hs as [s Hs].
  destruct e; simpl; try (exists s; exact Hs).
  - destruct v; try contradiction. eexists; reflexivity.
  - rewrite Hs. unfold js_add. simpl. eexists; reflexivity.
Qed.

(** ** The claims about [handleQuery] *)

(** C3: for a record-aligned delivery of a query stream, every delivered
    piece holding a whole number of newline-terminated records,
    [handleQuery] applies the decoded events in exactly the order of the
    stream: after its resets and its request, each read is followed by the
    setters of the events of the piece read, one setter per event, none
    skipped and none repeated, and the loop ends with the read that
    reports the end of the stream. *)
Theorem handleQuery_applies_events_in_order
    (st : state) (pieces : list (list byte * list (jsstring * StreamEvent))) :
  Forall (fun p => delivers_records (fst p) (snd p)) pieces ->
  handleQuery st
    (Fulfilled {| query_ok := true; query_body := stream_of (map fst pieces) |})
  = resets ++ query_request st
      :: flat_map (fun p => piece_trace (map snd (snd p))) pieces
      ++ [reader_read; setIsLoading false].
Proof.
  intros H. rewrite handleQuery_ok, (read_loop_records _ H).
  unfold try_catch_finally. rewrite <- app_assoc. reflexivity.
Qed.

(** C2, as the code has it: an error event does not stop the loop. When a
    line of a delivered piece decodes to an error event, [handleQuery]
    sets the error state to the event's data and goes on: the lines
    before it, the lines after it in the piece and the rest of the stream
    are read and processed as they are without it. *)
Theorem error_event_does_not_abort
    (piece : list byte) (before after : list jsstring) (line : jsstring)
    (parsed data : value) (rest : stream) :
  lines_of (TextDecoder_decode piece) = before ++ line :: after ->
  JSON_parse line = inr parsed ->
  get parsed (js "type") = inr (VStr (js "error")) ->
  get parsed (js "data") = inr data ->
  read_loop (delivered piece rest)
  = perform reader_read ;;
    for_of before process_line ;;
    perform (setError data) ;;
    for_of after process_line ;;
    read_loop rest.
Proof.
  intros Hl Hp Ht Hd. rewrite read_loop_delivered. unfold process_piece.
  rewrite Hl, for_of_app, for_of_cons, (process_line_get _ _ _ _ Hp Ht Hd).
  rewrite !bind_assoc. reflexivity.
Qed.

(** C4: a decoded chunk event appends its data to the answer: the line
    calls [setAnswer(prev => prev + data)] once and nothing else, and the
    answer after it is the answer before it followed by the data, every
    other field of the state being as before. *)
Theorem chunk_event_appends
    (st : state) (line : jsstring) (parsed : value) (prev s : jsstring) :
  JSON_parse line = inr parsed ->
  get parsed (js "type") = inr (VStr (js "chunk")) ->
  get parsed (js "data") = inr (VStr s) ->
  answer st = VStr prev ->
  process_line line = ([setAnswer_prev_plus (VStr s)], inr tt)
  /\ run st (fst (process_line line))
     = State (selectedFile st) (query st) (VStr (prev ++ s)) (citations st)
         (isLoading st) (error st).
Proof.
  intros Hp Ht Hd Ha. rewrite (process_line_get _ _ _ _ Hp Ht Hd).
  split; [reflexivity|]. simpl. rewrite Ha. reflexivity.
Qed.

(** Chunks accumulate in the order they are received. *)
Lemma chunks_accumulate (chunks : list jsstring) (st : state) (prev : jsstring) :
  answer st = VStr prev ->
  run st (map (fun s => setAnswer_prev_plus (VStr s)) chunks)
  = State (selectedFile st) (query st) (VStr (prev ++ List.concat chunks)) (citations st)
      (isLoading st) (error st).
Proof.
  revert st prev. induction chunks as [|s chunks IH]; intros st prev Ha.
  - simpl. rewrite List.app_nil_r, <- Ha. destruct st; reflexivity.
  - simpl map. simpl run. rewrite (IH _ (prev ++ s)).
    + simpl. rewrite <- app_assoc. reflexivity.
    + simpl. rewrite Ha. reflexivity.
Qed.

(** C5: a decoded citations event replaces the citations: the line calls
    [setCitations(data)] once and nothing else, and the citations after it
    are exactly the event's data whatever they were before, every other
    field of the state being as before. *)
Theorem citations_event_replaces
    (st : state) (line : jsstring) (parsed data : value) :
  JSON_parse line = inr parsed ->
  get parsed (js "type") = inr (VStr (js "citations")) ->
  get parsed (js "data") = inr data ->
  process_line line = ([setCitations data], inr tt)
  /\ run st (fst (process_line line))
     = State (selectedFile st) (query st) (answer st) data (isLoading st) (error st).
Proof.
  intros Hp Ht Hd. rewrite (process_line_get _ _ _ _ Hp Ht Hd).
  split; reflexivity.
Qed.

(** C9: a decoded error event changes the error state only: the line
    calls [setError(data)] once and nothing else and does not throw; the
    answer accumulated so far and the citations stay as they were. *)
Theorem error_event_keeps_answer
    (st : state) (line : jsstring) (parsed data : value) :
  JSON_parse line = inr parsed ->
  get parsed (js "type") = inr (VStr (js "error")) ->
  get parsed (js "data") = inr data ->
  process_line line = ([setError data], inr tt)
  /\ run st (fst (process_line line))
     = State (selectedFile st) (query st) (answer st) (citations st) (isLoading st) data.
Proof.
  intros Hp Ht Hd. rewrite (process_line_get _ _ _ _ Hp Ht Hd).
  split; reflexivity.
Qed.

(** C10: a record that parses and whose [type] is none of ["chunk"],
    ["citations"] and ["error"] is ignored: the line calls no setter and
    does not throw, so the state is as before. *)
Theorem unknown_type_is_ignored
    (st : state) (line : jsstring) (parsed type : value) :
  JSON_parse line = inr parsed ->
  get parsed (js "type") = inr type ->
  is_string type (js "chunk") = false ->
  is_string type (js "citations") = false ->
  is_string type (js "error") = false ->
  process_line line = ([], inr tt)
  /\ run st (fst (process_line line)) = st.
Proof.
  intros Hp Ht H1 H2 H3.
  assert (Hd : dispatch parsed = ([], inr tt)).
  { unfold dispatch. rewrite Ht. unfold lift, bind, ret. rewrite H1, H2, H3. reflexivity. }
  unfold process_line. rewrite Hp. unfold lift. rewrite bind_returns, Hd.
  split; reflexivity.
Qed.






(** ** [handleIngest] *)


(** ** The resets of [handleQuery] *)

Lemma displayed_apply (st st' : state) (e : effect) :
  displayed st = displayed st' -> displayed (apply st e) = displayed (apply st' e).
Proof.
  unfold displayed. intros H. injection H as Ha Hc He.
  destruct e; simpl; congruence.
Qed.

Lemma displayed_run (t : list effect) (st st' : state) :
  displayed st = displayed st' -> displayed (run st t) = displayed (run st' t).
Proof.
  revert st st'. induction t as [|e t IH]; intros st st' H; [exact H|].
  simpl. apply IH, displayed_apply, H.
Qed.

Lemma handleQuery_tail (net : fetched query_response) :
  exists tail, forall st, handleQuery st net = resets ++ query_request st :: tail.
Proof.
  destruct net as [[ok body]|err].
  - destruct ok.
    + eexists. intros st. apply handleQuery_ok.
    + eexists. intros st. reflexivity.
  - eexists. intros st. reflexivity.
Qed.

(** C8: every call of [handleQuery] starts with the four resets, before
    its request and so before any read of the response: the error is the
    empty string, the answer the empty string and the citations the empty
    array from then on, and what is displayed when the handler has finished
    does not depend on the state it was called in: nothing of an earlier
    query is combined with the events of this one. *)
Theorem handleQuery_resets_first (net : fetched query_response) :
  exists tail,
    (forall st, handleQuery st net = resets ++ query_request st :: tail)
    /\ ~ In reader_read resets
    /\ (forall st, displayed (run st resets) = (VStr [], VArr [], VStr []))
    /\ (forall st st',
          displayed (run st (handleQuery st net))
          = displayed (run st' (handleQuery st' net))).
Proof.
  destruct (handleQuery_tail net) as [tail Htail]. exists tail.
  split; [exact Htail|]. split; [|split].
  - simpl. intros [H|[H|[H|[H|[]]]]]; discriminate.
  - reflexivity.
  - intros st st'. rewrite !Htail, !run_app. simpl run at 1 3.
    apply displayed_run. reflexivity.
Qed.

(** ** Deliveries of whole records *)

(** The pieces of a delivery are a partition of the encoding of its events. *)
Lemma pieces_partition_encoding (pieces : list (list StreamEvent)) :
  List.concat (map (flat_map wire_record) pieces)
  = flat_map wire_record (List.concat pieces).
Proof.
  induction pieces as [|p pieces IH]; [reflexivity|].
  simpl. rewrite IH, flat_map_app. reflexivity.
Qed.
Lemma ascii_bytes_records (events : list StreamEvent) :
  flat_map wire_record events
  = ascii_bytes (flat_map (fun e => encode_event e ++ [0xA]) events).
Proof.
  unfold ascii_bytes, wire_record.
  induction events as [|e events IH]; [reflexivity|].
  cbn [flat_map]. rewrite map_app, IH. reflexivity.
Qed.

Lemma records_ascii (events : list StreamEvent) :
  Forall well_formed events ->
  Forall (fun c => c < 0x80) (flat_map (fun e => encode_event e ++ [0xA]) events).
Proof.
  induction 1 as [|e events He _ IH]; [constructor|].
  cbn [flat_map]. rewrite !Forall_app. split; [split|exact IH].
  - apply printable_ascii, encode_event_printable, He.
  - constructor; [reflexivity|constructor].
Qed.

(** A byte array that holds the wire records of some events delivers the
    events' lines. *)
Lemma wire_records_deliver (events : list StreamEvent) :
  Forall well_formed events ->
  delivers_records (flat_map wire_record events)
    (map (fun e => (encode_event e, e)) events).
Proof.
  intros Hwf. split.
  - rewrite ascii_bytes_records, TextDecoder_decode_ascii by (apply records_ascii, Hwf).
    rewrite !flat_map_concat_map, map_map. reflexivity.
  - apply Forall_map. eapply Forall_impl; [|exact Hwf].
    intros e He. cbn [fst snd]. split.
    + apply printable_no_newline, encode_event_printable, He.
    + apply JSON_parse_event, He.
Qed.

Lemma lines_of_wire_records (events : list StreamEvent) :
  Forall well_formed events ->
  lines_of (TextDecoder_decode (flat_map wire_record events)) = map encode_event events.
Proof.
  intros Hwf. destruct (wire_records_deliver events Hwf) as [Hdec Hrec].
  rewrite Hdec.
  replace (flat_map (fun r => fst r ++ [0xA]) (map (fun e => (encode_event e, e)) events))
    with (flat_map (fun l => l ++ [0xA]) (map encode_event events))
    by (rewrite !flat_map_concat_map, !map_map; reflexivity).
  apply lines_of_records. apply Forall_map. eapply Forall_impl; [|exact Hwf].
  intros e He. split.
  - apply printable_no_newline, encode_event_printable, He.
  - eapply JSON_parse_not_blank, JSON_parse_event, He.
Qed.

(** C1, as the code has it: the loop keeps nothing from one delivered
    piece to the next, so it reconstructs the events of the deliveries that
    cut the stream at record boundaries. For every sequence of well-formed
    events and every partition of it into pieces, each piece delivered as
    the newline-terminated lines of its events, the lines that the loop
    parses are, in order, the lines of the events and parse to exactly the
    events; and [handleQuery] applies exactly these events, piece after
    piece. *)
Theorem aligned_pieces_are_reconstructed (st : state) (pieces : list (list StreamEvent)) :
  Forall (Forall well_formed) pieces ->
  map JSON_parse
    (flat_map (fun events => lines_of (TextDecoder_decode (flat_map wire_record events)))
       pieces)
  = map (fun e => inr (event_value e)) (List.concat pieces)
  /\ handleQuery st
       (Fulfilled {| query_ok := true;
                     query_body := stream_of (map (flat_map wire_record) pieces) |})
     = resets ++ query_request st
         :: flat_map piece_trace pieces ++ [reader_read; setIsLoading false].
Proof.
  intros Hwf. split.
  - induction Hwf as [|events pieces He _ IH]; [reflexivity|].
    cbn [flat_map List.concat]. rewrite !map_app, IH, (lines_of_wire_records _ He), map_map.
    f_equal. apply map_ext_in. intros e Hin. apply JSON_parse_event.
    rewrite Forall_forall in He. apply He, Hin.
  - rewrite handleQuery_ok.
    set (ps := map (fun events => (flat_map wire_record events,
                                   map (fun e => (encode_event e, e)) events)) pieces).
    replace (map (flat_map wire_record) pieces) with (map fst ps)
      by (unfold ps; rewrite map_map; reflexivity).
    rewrite (read_loop_records ps).
    + unfold try_catch_finally, ps. rewrite <- app_assoc.
      rewrite flat_map_concat_map, map_map, <- flat_map_concat_map.
      cbn [snd]. do 3 f_equal.
      apply flat_map_ext. intros events. rewrite map_map. cbn [snd]. rewrite map_id.
      reflexivity.
    + apply Forall_map. eapply Forall_impl; [|exact Hwf].
      intros events He. apply wire_records_deliver, He.
Qed.

(** ** Deliveries that cut a record, and records after an error *)

(** On every engine the spec's two-piece example ends in the catch block:
    the first piece does not parse and the second piece is never read. *)
Lemma split_delivery_trace (st : state) :
  handleQuery st (Fulfilled {| query_ok := true; query_body := split_delivery |})
  = resets ++ [query_request st; reader_read;
               setError (VStr (json_syntax_message (json "{'type':'ch")));
               setIsLoading false].
Proof. vm_compute. reflexivity. Qed.


(** On every engine the chunk that follows an error record is read and
    appended. *)
Lemma error_then_chunk_trace (st : state) :
  handleQuery st (Fulfilled {| query_ok := true; query_body := error_then_chunk |})
  = resets ++ [query_request st;
               reader_read; setError (VStr (js "boom"));
               reader_read; setAnswer_prev_plus (VStr (js "late"));
               reader_read; setIsLoading false].
Proof. vm_compute. reflexivity. Qed.

End Handlers.

(** ** A character cut by a piece boundary *)

Lemma lor_small (a b n : N) : a < 2 ^ n -> b < 2 ^ n -> N.lor a b < 2 ^ n.
Proof.
  intros Ha Hb. destruct (N.eq_dec (N.lor a b) 0) as [->|Hne].
  - apply N.neq_0_lt_0, N.pow_nonzero. discriminate.
  - apply N.log2_lt_pow2; [lia|]. rewrite N.log2_lor.
    destruct (N.eq_dec a 0) as [->|Ha0], (N.eq_dec b 0) as [->|Hb0].
    + contradiction.
    + apply N.max_lub_lt; [|apply N.log2_lt_pow2; lia].
      simpl. destruct n; [simpl in Hb; lia|lia].
    + apply N.max_lub_lt; [apply N.log2_lt_pow2; lia|].
      simpl. destruct n; [simpl in Ha; lia|lia].
    + apply N.max_lub_lt; apply N.log2_lt_pow2; lia.
Qed.

Lemma two_byte_code_point_small (l c : N) : two_byte_code_point l c < 0x800.
Proof.
  unfold two_byte_code_point. change 0x800 with (2 ^ 11). apply lor_small.
  - rewrite N.shiftl_mul_pow2. pose proof (N.land_le_r l 0x1F). simpl. lia.
  - pose proof (N.land_le_r c 0x3F). simpl. lia.
Qed.

Lemma utf8_decode_ascii_app (a rest : list byte) :
  Forall (fun x => Byte.to_N x < 0x80) a ->
  utf8_decode utf8_start (a ++ rest) = map Byte.to_N a ++ utf8_decode utf8_start rest.
Proof.
  induction 1 as [|x a Hx _ IH]; [reflexivity|].
  cbn [app utf8_decode utf8_start utf8_bytes_needed N.eqb map].
  unfold utf8_lead. replace (Byte.to_N x <=? 0x7F) with true
    by (symmetry; apply N.leb_le; lia).
  fold utf8_start. rewrite IH. reflexivity.
Qed.

Lemma units_of_code_points (cps : list N) :
  Forall (fun c => c < 0x10000 /\ c <> 0xFEFF) cps ->
  flat_map utf16_units (strip_bom cps) = cps.
Proof.
  intros H. assert (Hs : strip_bom cps = cps).
  { destruct H as [|c cps [_ Hc] _]; [reflexivity|].
    unfold strip_bom. apply N.eqb_neq in Hc. rewrite Hc. reflexivity. }
  rewrite Hs. clear Hs. induction H as [|c cps [Hc _] _ IH]; [reflexivity|].
  cbn [flat_map]. rewrite IH. unfold utf16_units.
  replace (c <? 0x10000) with true by (symmetry; apply N.ltb_lt; lia).
  reflexivity.
Qed.

Lemma ascii_code_points (a : list byte) :
  Forall (fun x => Byte.to_N x < 0x80) a ->
  Forall (fun c => c < 0x10000 /\ c <> 0xFEFF) (map Byte.to_N a).
Proof.
  intros H. apply Forall_map. eapply Forall_impl; [|exact H].
  intros x Hx. simpl in Hx. lia.
Qed.

(** Every byte array is decoded on its own: a two-byte character that is
    delivered whole, between ASCII text, is decoded to its code point;
    cut between two pieces, it is decoded as two replacement characters
    U+FFFD. *)
Theorem split_character_is_replaced (a b : list byte) (l c : byte) :
  Forall (fun x => Byte.to_N x < 0x80) a ->
  Forall (fun x => Byte.to_N x < 0x80) b ->
  0xC2 <= Byte.to_N l <= 0xDF ->
  0x80 <= Byte.to_N c <= 0xBF ->
  TextDecoder_decode (a ++ l :: c :: b)
  = map Byte.to_N a ++ two_byte_code_point (Byte.to_N l) (Byte.to_N c) :: map Byte.to_N b
  /\ TextDecoder_decode (a ++ [l]) ++ TextDecoder_decode (c :: b)
     = map Byte.to_N a ++ REPLACEMENT :: REPLACEMENT :: map Byte.to_N b.
Proof.
  intros Ha Hb Hl Hc.
  assert (Hlead : utf8_lead (Byte.to_N l)
                  = ([], Utf8State (N.land (Byte.to_N l) 0x1F) 0 1 0x80 0xBF)).
  { unfold utf8_lead.
    replace (Byte.to_N l <=? 0x7F) with false by (symmetry; apply N.leb_gt; lia).
    replace ((0xC2 <=? Byte.to_N l) && (Byte.to_N l <=? 0xDF)) with true; [reflexivity|].
    symmetry. apply andb_true_iff. split; apply N.leb_le; lia. }
  assert (Hcont : utf8_lead (Byte.to_N c) = ([REPLACEMENT], utf8_start)).
  { unfold utf8_lead.
    replace (Byte.to_N c <=? 0x7F) with false by (symmetry; apply N.leb_gt; lia).
    replace (0xC2 <=? Byte.to_N c) with false by (symmetry; apply N.leb_gt; lia).
    replace (0xE0 <=? Byte.to_N c) with false by (symmetry; apply N.leb_gt; lia).
    replace (0xF0 <=? Byte.to_N c) with false by (symmetry; apply N.leb_gt; lia).
    reflexivity. }
  pose proof (two_byte_code_point_small (Byte.to_N l) (Byte.to_N c)) as Hsmall.
  split.
  - unfold TextDecoder_decode. rewrite utf8_decode_ascii_app by exact Ha.
    cbn [utf8_decode utf8_start utf8_bytes_needed N.eqb]. rewrite Hlead.
    cbn [app utf8_bytes_needed utf8_lower_boundary utf8_upper_boundary
         utf8_bytes_seen utf8_code_point N.eqb N.add Pos.eqb].
    replace ((0x80 <=? Byte.to_N c) && (Byte.to_N c <=? 0xBF)) with true
      by (symmetry; apply andb_true_iff; split; apply N.leb_le; lia).
    fold utf8_start. fold (two_byte_code_point (Byte.to_N l) (Byte.to_N c)).
    rewrite utf8_decode_ascii by exact Hb.
    apply units_of_code_points. apply Forall_app. split.
    + apply ascii_code_points, Ha.
    + constructor; [lia|apply ascii_code_points, Hb].
  - unfold TextDecoder_decode. rewrite utf8_decode_ascii_app by exact Ha.
    cbn [utf8_decode utf8_start utf8_bytes_needed N.eqb]. rewrite Hlead, Hcont.
    cbn [app utf8_bytes_needed N.eqb]. fold utf8_start.
    rewrite utf8_decode_ascii by exact Hb.
    rewrite !units_of_code_points.
    + rewrite <- app_assoc. reflexivity.
    + constructor; [unfold REPLACEMENT; lia|apply ascii_code_points, Hb].
    + apply Forall_app. split; [apply ascii_code_points, Ha|].
      constructor; [unfold REPLACEMENT; lia|constructor].
Qed.

(** ** The handlers on every path *)

Section Further.
Context {E : Engine}.

(** *** What the loop can do *)

Lemma dispatch_loop_effects (parsed : value) : Forall loop_effect (fst (dispatch parsed)).
Proof.
  unfold dispatch.
  repeat first
    [ apply bind_trace; [apply lift_trace|intros ?]
    | match goal with |- context [if ?b then _ else _] => destruct b end
    | (constructor; [exact I|constructor])
    | constructor ].
Qed.

Lemma for_of_loop_effects (lines : list jsstring) :
  Forall loop_effect (fst (for_of lines process_line)).
Proof.
  induction lines as [|l ls IH]; [constructor|].
  cbn [for_of]. apply bind_trace; [|intros _; exact IH].
  unfold process_line. apply bind_trace; [apply lift_trace|intros v].
  apply dispatch_loop_effects.
Qed.

Lemma read_loop_effects (body : stream) : Forall loop_effect (fst (read_loop body)).
Proof.
  induction body as [|piece rest IH|err]; cbn [read_loop].
  - repeat constructor.
  - apply bind_trace; [repeat constructor|intros _].
    apply bind_trace; [|intros _; exact IH]. apply for_of_loop_effects.
  - repeat constructor.
Qed.

(** The shape of every run of [handleQuery]: the resets, the request, what
    the loop did, the error of the catch block if something was thrown,
    and the end of loading. *)
Lemma handleQuery_shape (st : state) (net : fetched query_response) :
  exists middle caught,
    handleQuery st net
    = resets ++ query_request st :: middle ++ caught ++ [setIsLoading false]
    /\ Forall loop_effect middle
    /\ (caught = [] \/ exists err, caught = [setError (VStr (message err))])
    /\ (existsb is_reader_read middle
        = match net with Fulfilled r => query_ok r | Failed _ => false end).
Proof.
  destruct net as [[ok body]|err].
  - destruct ok.
    + rewrite handleQuery_ok. pose proof (read_loop_effects body) as Hloop.
      assert (Hread : existsb is_reader_read (fst (read_loop body)) = true).
      { destruct body; [reflexivity| |reflexivity].
        rewrite read_loop_delivered, bind_perform. reflexivity. }
      destruct (read_loop body) as [t [e|[]]]; cbn [fst] in *.
      * exists t, [setError (VStr (message e))]. repeat split; eauto.
      * exists t, []. repeat split; auto.
    + exists [], [setError (VStr (message (new_Error
                 (VStr (js "Query failed. Is the backend running?")))))].
      repeat split; eauto.
  - exists [], [setError (VStr (message err))]. repeat split; eauto.
Qed.

Lemma Forall_prefix {A} (P : A -> Prop) (n : nat) (l : list A) :
  Forall P l -> Forall P (firstn n l).
Proof.
  intros H. revert n. induction H as [|a l Ha _ IH]; intros [|n]; simpl; auto.
Qed.

Lemma loop_effect_controls (t : list effect) :
  Forall loop_effect t -> Forall keeps_controls t.
Proof.
  apply Forall_impl. intros e He. destruct e; try contradiction; exact I.
Qed.

Lemma keeps_controls_loading (t : list effect) :
  Forall keeps_controls t -> Forall keeps_loading t.
Proof.
  apply Forall_impl. intros e He. destruct e; try contradiction; exact I.
Qed.

Lemma run_keeps_controls (t : list effect) (st : state) :
  Forall keeps_controls t ->
  selectedFile (run st t) = selectedFile st
  /\ query (run st t) = query st
  /\ isLoading (run st t) = isLoading st.
Proof.
  intros Ht. revert st. induction Ht as [|e t He _ IH]; intros st; [auto|].
  simpl. destruct (IH (apply st e)) as (H1 & H2 & H3). rewrite H1, H2, H3.
  destruct e; try contradiction; auto.
Qed.

Lemma run_keeps_loading (t : list effect) (st : state) :
  Forall keeps_loading t -> isLoading (run st t) = isLoading st.
Proof.
  intros Ht. revert st. induction Ht as [|e t He _ IH]; intros st; [auto|].
  simpl. rewrite IH. destruct e; try contradiction; auto.
Qed.

Lemma run_query (t : list effect) (st : state) : query (run st t) = query st.
Proof.
  revert st. induction t as [|e t IH]; intros st; [reflexivity|].
  simpl. rewrite IH. destruct e; reflexivity.
Qed.

Lemma filter_loop_effects (p : effect -> bool) (t : list effect) :
  (forall e, loop_effect e -> p e = false) ->
  Forall loop_effect t -> filter p t = [].
Proof.
  intros Hp Ht. induction Ht as [|e t He _ IH]; [reflexivity|].
  simpl. rewrite (Hp e He). exact IH.
Qed.

(** [handleQuery] sends exactly one request, whatever the query is (it
    has no guard of its own) and whatever the network answers. *)
Theorem handleQuery_requests_once (st : state) (net : fetched query_response) :
  filter is_fetch (handleQuery st net) = [query_request st].
Proof.
  destruct (handleQuery_shape st net) as (middle & caught & -> & Hm & Hc & _).
  rewrite !filter_app. cbn [filter is_fetch resets query_request app].
  rewrite !filter_app, (filter_loop_effects is_fetch middle), app_nil_l.
  - destruct Hc as [->|[err ->]]; reflexivity.
  - intros e He. destruct e; try contradiction; reflexivity.
  - exact Hm.
Qed.

(** The body of the response is read only when the request was answered
    and the response is ok. *)
Theorem handleQuery_reads_only_ok (st : state) (net : fetched query_response) :
  existsb is_reader_read (handleQuery st net)
  = match net with Fulfilled r => query_ok r | Failed _ => false end.
Proof.
  destruct (handleQuery_shape st net) as (middle & caught & -> & Hm & Hc & Hr).
  rewrite existsb_app. cbn [existsb is_reader_read resets query_request orb].
  rewrite !existsb_app, Hr.
  destruct Hc as [->|[err ->]]; cbn; rewrite ?orb_false_r; reflexivity.
Qed.

(** Whatever the network answers and whatever the stream holds,
    [handleQuery] ends with loading off and has changed neither the chosen
    file nor the query. *)
Theorem handleQuery_frame (st : state) (net : fetched query_response) :
  let final := run st (handleQuery st net) in
  isLoading final = false
  /\ selectedFile final = selectedFile st
  /\ query final = query st.
Proof.
  destruct (handleQuery_shape st net) as (middle & caught & Heq & Hm & Hc & _).
  cbv zeta. rewrite Heq.
  replace (resets ++ query_request st :: middle ++ caught ++ [setIsLoading false])
    with ((resets ++ query_request st :: middle ++ caught) ++ [setIsLoading false])
    by (rewrite <- !app_assoc; cbn [app]; rewrite <- !app_assoc; reflexivity).
  rewrite run_app. cbn [run fold_left apply isLoading selectedFile query].
  split; [reflexivity|].
  rewrite run_app. change (query_request st :: middle ++ caught)
    with ([query_request st] ++ middle ++ caught).
  rewrite !run_app.
  assert (Hcaught : Forall keeps_controls caught).
  { destruct Hc as [->|[err ->]]; repeat constructor. }
  destruct (run_keeps_controls caught
              (run (run (run st resets) [query_request st]) middle) Hcaught)
    as (H1 & H2 & _).
  destruct (run_keeps_controls middle (run (run st resets) [query_request st])
              (loop_effect_controls _ Hm)) as (H3 & H4 & _).
  rewrite H1, H2, H3, H4. split; reflexivity.
Qed.

(** From its first effect to its last, [handleQuery] keeps the loading
    flag on, so both buttons are disabled while it runs. *)
Theorem handleQuery_loading_throughout
    (st : state) (net : fetched query_response) (n : nat) :
  (0 < n < List.length (handleQuery st net))%nat ->
  let during := run st (firstn n (handleQuery st net)) in
  isLoading during = true
  /\ ingest_button_disabled during = true
  /\ query_button_disabled during = true.
Proof.
  intros Hn. cbv zeta.
  assert (Hl : isLoading (run st (firstn n (handleQuery st net))) = true).
  { destruct (handleQuery_shape st net) as (middle & caught & Heq & Hm & Hc & _).
    set (rest := [setError (VStr []); setAnswer (VStr []); setCitations (VArr []);
                  query_request st] ++ middle ++ caught).
    assert (Heq' : handleQuery st net = setIsLoading true :: rest ++ [setIsLoading false]).
    { rewrite Heq. unfold rest, resets. cbn [app]. rewrite <- !app_assoc. reflexivity. }
    rewrite Heq' in *. clear Heq Heq'.
    destruct n as [|n]; [lia|]. cbn [firstn]. cbn [List.length] in Hn.
    rewrite length_app in Hn. cbn [List.length] in Hn.
    rewrite firstn_app. replace (n - List.length rest)%nat with 0%nat by lia.
    cbn [firstn]. rewrite List.app_nil_r. cbn [run fold_left].
    change (fold_left apply (firstn n rest) (apply st (setIsLoading true)))
      with (run (apply st (setIsLoading true)) (firstn n rest)).
    rewrite run_keeps_loading; [reflexivity|].
    apply Forall_prefix. unfold rest. apply Forall_app. split.
    - repeat constructor.
    - apply Forall_app. split.
      + apply keeps_controls_loading, loop_effect_controls, Hm.
      + destruct Hc as [->|[err ->]]; repeat constructor. }
  unfold ingest_button_disabled, query_button_disabled. rewrite Hl. auto.
Qed.

(** *** [handleIngest], path by path *)

Lemma handleIngest_selected (st : state) (file : File) (net : fetched ingest_response) :
  selectedFile st = Some file ->
  handleIngest st net
  = [setIsLoading true; setError (VStr []); ingest_request file]
    ++ ingest_middle net ++ [setIsLoading false].
Proof.
  intros Hf. unfold handleIngest. rewrite Hf. unfold await_fetch.
  rewrite bind_assoc, bind_perform.
  destruct net as [[ok [e|body]]|err]; [destruct ok|destruct ok|];
    cbn [fst snd ret bind negb ingest_ok ingest_json app lift perform throw
         try_catch_finally ingest_middle]; try reflexivity.
  - destruct (get body (js "message")) as [e|msg]; reflexivity.
  - destruct (get body (js "error")) as [e|err]; reflexivity.
Qed.

Lemma handleIngest_unselected (st : state) (net : fetched ingest_response) :
  selectedFile st = None ->
  handleIngest st net = [alert (VStr (js "Please select a file first."))].
Proof. intros Hf. unfold handleIngest. rewrite Hf. reflexivity. Qed.

Lemma ingest_middle_no_fetch (net : fetched ingest_response) :
  filter is_fetch (ingest_middle net) = [].
Proof.
  destruct net as [[ok [e|body]]|err]; cbn; try reflexivity.
  destruct ok.
  - destruct (get body (js "message")); reflexivity.
  - destruct (get body (js "error")); reflexivity.
Qed.

(** [handleIngest] sends one request, with the chosen file in the form
    field [file], when a file is chosen, and none when no file is chosen,
    whatever the network would answer. *)
Theorem handleIngest_requests_once (st : state) (net : fetched ingest_response) :
  filter is_fetch (handleIngest st net)
  = match selectedFile st with
    | Some file => [ingest_request file]
    | None => []
    end.
Proof.
  destruct (selectedFile st) as [file|] eqn:Hf.
  - rewrite (handleIngest_selected _ _ _ Hf), !filter_app, ingest_middle_no_fetch.
    reflexivity.
  - rewrite (handleIngest_unselected _ _ Hf). reflexivity.
Qed.

(** [handleIngest] calls [response.json()] once when its request is
    answered, on the failure path as on the success path, and never
    twice: the body of a response can be read only once. *)
Theorem handleIngest_reads_body_once (st : state) (net : fetched ingest_response) :
  filter is_response_json (handleIngest st net)
  = match selectedFile st, net with
    | Some _, Fulfilled _ => [response_json]
    | _, _ => []
    end.
Proof.
  destruct (selectedFile st) as [file|] eqn:Hf.
  - rewrite (handleIngest_selected _ _ _ Hf), !filter_app.
    destruct net as [[ok [e|body]]|err]; cbn; try reflexivity.
    destruct ok.
    + destruct (get body (js "message")); reflexivity.
    + destruct (get body (js "error")); reflexivity.
  - rewrite (handleIngest_unselected _ _ Hf). destruct net; reflexivity.
Qed.

(** Without a chosen file [handleIngest] only shows its alert and the
    state is as before. With one it ends with loading off, and it never
    changes the query, the answer or the citations, whatever the network
    answers. *)
Theorem handleIngest_frame (st : state) (net : fetched ingest_response) :
  let final := run st (handleIngest st net) in
  match selectedFile st with
  | None => final = st
  | Some _ =>
      isLoading final = false
      /\ query final = query st
      /\ answer final = answer st
      /\ citations final = citations st
  end.
Proof.
  cbv zeta. destruct (selectedFile st) as [file|] eqn:Hf.
  - rewrite (handleIngest_selected _ _ _ Hf).
    destruct net as [[ok [e|body]]|err]; cbn; try (repeat split; reflexivity).
    destruct ok.
    + destruct (get body (js "message")); cbn; repeat split; reflexivity.
    + destruct (get body (js "error")); cbn; repeat split; reflexivity.
  - rewrite (handleIngest_unselected _ _ Hf). reflexivity.
Qed.



(** When the request fails, or the body of the response is not JSON, the
    error shown is the message of that failure, for an ok response as for
    a failure response: the fixed text is not used. *)
Theorem handleIngest_shows_failure
    (st : state) (file : File) (ok : bool) (e : exn) :
  selectedFile st = Some file ->
  error (run st (handleIngest st (Failed e))) = VStr (message e)
  /\ error (run st
       (handleIngest st (Fulfilled {| ingest_ok := ok; ingest_json := inl e |})))
     = VStr (message e).
Proof.
  intros Hf. rewrite !(handleIngest_selected _ _ _ Hf). split; reflexivity.
Qed.

(** From its first effect to its last, [handleIngest] keeps the loading
    flag on when a file is chosen, so both buttons are disabled while it
    runs. *)
Theorem handleIngest_loading_throughout
    (st : state) (file : File) (net : fetched ingest_response) (n : nat) :
  selectedFile st = Some file ->
  (0 < n < List.length (handleIngest st net))%nat ->
  let during := run st (firstn n (handleIngest st net)) in
  isLoading during = true
  /\ ingest_button_disabled during = true
  /\ query_button_disabled during = true.
Proof.
  intros Hf Hn. cbv zeta.
  assert (Hl : isLoading (run st (firstn n (handleIngest st net))) = true).
  { set (rest := [setError (VStr []); ingest_request file] ++ ingest_middle net).
    assert (Heq : handleIngest st net = setIsLoading true :: rest ++ [setIsLoading false]).
    { rewrite (handleIngest_selected _ _ _ Hf). unfold rest. reflexivity. }
    rewrite Heq in *. clear Heq.
    destruct n as [|n]; [lia|]. cbn [firstn]. cbn [List.length] in Hn.
    rewrite length_app in Hn. cbn [List.length] in Hn.
    rewrite firstn_app. replace (n - List.length rest)%nat with 0%nat by lia.
    cbn [firstn]. rewrite List.app_nil_r. cbn [run fold_left].
    change (fold_left apply (firstn n rest) (apply st (setIsLoading true)))
      with (run (apply st (setIsLoading true)) (firstn n rest)).
    rewrite run_keeps_loading; [reflexivity|].
    apply Forall_prefix. unfold rest. apply Forall_app. split.
    - repeat constructor.
    - destruct net as [[ok [e|body]]|err]; cbn; try (repeat constructor).
      destruct ok.
      + destruct (get body (js "message")); repeat constructor.
      + destruct (get body (js "error")); repeat constructor. }
  unfold ingest_button_disabled, query_button_disabled. rewrite Hl. auto.
Qed.

(** *** Lines that do not parse, records that are no objects *)

Lemma bind_throw {A B} (e : exn) (k : A -> M B) : bind (throw e) k = throw e.
Proof. reflexivity. Qed.

(** A line that [JSON.parse] rejects ends the loop at once: the lines
    before it in the piece have been processed, the lines after it and the
    rest of the stream are never looked at. *)
Theorem parse_failure_aborts
    (piece : list byte) (before after : list jsstring) (line : jsstring)
    (e : exn) (rest : stream) :
  lines_of (TextDecoder_decode piece) = before ++ line :: after ->
  JSON_parse line = inl e ->
  read_loop (delivered piece rest)
  = perform reader_read ;; for_of before process_line ;; throw e.
Proof.
  intros Hl Hp. rewrite read_loop_delivered. unfold process_piece.
  rewrite Hl, for_of_app, for_of_cons.
  assert (Hline : process_line line = throw e).
  { unfold process_line. rewrite Hp. reflexivity. }
  rewrite Hline, !bind_assoc. f_equal.
Qed.

(** A line that holds JSON that is no object: [null] makes the loop throw
    a [TypeError] (reading [type] of [null]); a number, a string, a
    boolean or an array is skipped without any effect. *)
Theorem non_object_records (line : jsstring) (v : value) :
  JSON_parse line = inr v ->
  process_line line
  = match v with
    | VNull | VUndefined => throw (Exn TypeError (null_property_message (js "type")))
    | VObj _ => dispatch v
    | _ => ret tt
    end.
Proof.
  intros Hp. unfold process_line. rewrite Hp. unfold lift. rewrite bind_returns.
  destruct v; try reflexivity. destruct (dispatch (VObj members)); reflexivity.
Qed.



(** *** The lines of a piece *)

Lemma split_no_sep (sep : char) (l : jsstring) : ~ In sep l -> split sep l = [l].
Proof.
  induction l as [|c l IH]; simpl; intros Hnot; [reflexivity|].
  destruct (N.eqb_spec c sep) as [->|Hne].
  - exfalso. apply Hnot. left; reflexivity.
  - rewrite IH by (intros Hin; apply Hnot; right; exact Hin). reflexivity.
Qed.

Lemma split_joined (sep : char) (lines : list jsstring) (l : jsstring) :
  Forall (fun l => ~ In sep l) (l :: lines) ->
  split sep (join [sep] (l :: lines)) = l :: lines.
Proof.
  revert l. induction lines as [|l' lines IH]; intros l H.
  - cbn [join flat_map]. rewrite List.app_nil_r. apply split_no_sep.
    apply (Forall_inv H).
  - pose proof (Forall_inv H) as Hl. apply Forall_inv_tail in H.
    specialize (IH l' H). cbn [join flat_map app] in *.
    rewrite split_line by exact Hl. rewrite IH. reflexivity.
Qed.

(** The lines of a piece are its newline-separated lines that are not
    blank: blank lines between records are skipped, and the last record
    needs no newline after it. *)
Theorem lines_of_joined (lines : list jsstring) :
  Forall (fun l => no_newline l = true) lines ->
  lines_of (join [0xA] lines) = filter nonblank lines.
Proof.
  intros H. unfold lines_of. destruct lines as [|l lines]; [reflexivity|].
  rewrite split_joined; [reflexivity|].
  eapply Forall_impl; [|exact H]. intros x. apply no_newline_In.
Qed.

Lemma split_nonempty (sep : char) (s : jsstring) : split sep s <> [].
Proof.
  destruct s as [|c s]; simpl; [discriminate|].
  destruct (c =? sep); [discriminate|]. destruct (split sep s); discriminate.
Qed.

Lemma split_snoc (sep : char) (s : jsstring) :
  split sep (s ++ [sep]) = split sep s ++ [[]].
Proof.
  induction s as [|c s IH]; simpl.
  - rewrite N.eqb_refl. reflexivity.
  - destruct (c =? sep); rewrite IH; [reflexivity|].
    pose proof (split_nonempty sep s) as Hne.
    destruct (split sep s); [contradiction|reflexivity].
Qed.

(** A newline at the end of a piece changes nothing. *)
Theorem lines_of_final_newline (chunk : jsstring) :
  lines_of (chunk ++ [0xA]) = lines_of chunk.
Proof.
  unfold lines_of. rewrite split_snoc, filter_app. cbn. apply List.app_nil_r.
Qed.

(** *** What is on display when the stream has been read *)

Lemma displayed_run_events (events : list StreamEvent) :
  forall (st : state) (a : jsstring) (cs0 : list Citation),
  answer st = VStr a ->
  citations st = VArr (map citation_value cs0) ->
  displayed (run st (map effect_of_event events))
  = (VStr (a ++ answer_text events),
     VArr (map citation_value
             (fold_left (fun acc e => match e with Citations cs => cs | _ => acc end)
                events cs0)),
     fold_left (fun acc e => match e with Error s => VStr s | _ => acc end)
       events (error st)).
Proof.
  induction events as [|e events IH]; intros st a cs0 Ha Hc.
  - cbn. rewrite List.app_nil_r. unfold displayed. rewrite Ha, Hc. reflexivity.
  - cbn [map run fold_left]. fold (run (apply st (effect_of_event e)) (map effect_of_event events)).
    destruct e as [s|cs|s]; cbn [effect_of_event answer_text flat_map].
    + rewrite (IH _ (a ++ s) cs0).
      * rewrite <- app_assoc. reflexivity.
      * cbn. rewrite Ha. reflexivity.
      * exact Hc.
    + rewrite (IH _ a cs); [reflexivity|exact Ha|reflexivity].
    + rewrite (IH _ a cs0); [reflexivity|exact Ha|exact Hc].
Qed.

Lemma run_piece_traces (pieces : list (list byte * list (jsstring * StreamEvent)))
    (st : state) :
  run st (flat_map (fun p => piece_trace (map snd (snd p))) pieces)
  = run st (map effect_of_event (events_of pieces)).
Proof.
  revert st. induction pieces as [|p pieces IH]; intros st; [reflexivity|].
  unfold events_of in *. cbn [flat_map]. rewrite map_app, !run_app, <- IH.
  reflexivity.
Qed.

Lemma read_loop_failing (pieces : list (list byte * list (jsstring * StreamEvent)))
    (err : exn) :
  Forall (fun p => delivers_records (fst p) (snd p)) pieces ->
  read_loop (failing_stream (map fst pieces) err)
  = (flat_map (fun p => piece_trace (map snd (snd p))) pieces ++ [reader_read], inl err).
Proof.
  induction 1 as [|[piece records] pieces Hp _ IH]; [reflexivity|].
  simpl in Hp. simpl map. simpl failing_stream.
  fold (failing_stream (map fst pieces) err).
  rewrite read_loop_delivered, bind_perform.
  rewrite (process_piece_records _ _ Hp), bind_returns, IH.
  cbn [fst snd flat_map]. unfold piece_trace. rewrite <- app_assoc. reflexivity.
Qed.

Lemma displayed_finish (st : state) :
  displayed (run (run st [reader_read]) [setIsLoading false]) = displayed st.
Proof. reflexivity. Qed.

Lemma displayed_caught (st : state) (v : value) :
  displayed (run (run (run st [reader_read]) [setError v]) [setIsLoading false])
  = (answer st, citations st, v).
Proof. reflexivity. Qed.

(** When a delivery of whole records has been read to its end, the answer
    on display is the text of its chunks in order, the citations are those
    of its last citations event (none if it has none), and the error is
    the data of its last error event (empty if it has none). *)
Theorem handleQuery_final_display
    (st : state) (pieces : list (list byte * list (jsstring * StreamEvent))) :
  Forall (fun p => delivers_records (fst p) (snd p)) pieces ->
  displayed (run st
    (handleQuery st
       (Fulfilled {| query_ok := true; query_body := stream_of (map fst pieces) |})))
  = (VStr (answer_text (events_of pieces)),
     VArr (map citation_value (last_citations (events_of pieces))),
     last_error (events_of pieces)).
Proof.
  intros H. rewrite handleQuery_ok, (read_loop_records _ H).
  unfold try_catch_finally.
  change (query_request st :: ?t) with ([query_request st] ++ t).
  rewrite !run_app, run_piece_traces.
  set (st0 := run (run st resets) [query_request st]).
  rewrite displayed_finish.
  rewrite (displayed_run_events _ st0 [] []); reflexivity.
Qed.

(** When a read fails after some pieces of whole records, the answer and
    the citations received so far stay on display, and the error is the
    message of the failed read, whatever the error events said. *)
Theorem handleQuery_read_failure
    (st : state) (pieces : list (list byte * list (jsstring * StreamEvent)))
    (err : exn) :
  Forall (fun p => delivers_records (fst p) (snd p)) pieces ->
  displayed (run st
    (handleQuery st
       (Fulfilled {| query_ok := true;
                     query_body := failing_stream (map fst pieces) err |})))
  = (VStr (answer_text (events_of pieces)),
     VArr (map citation_value (last_citations (events_of pieces))),
     VStr (message err)).
Proof.
  intros H. rewrite handleQuery_ok, (read_loop_failing _ _ H).
  unfold try_catch_finally.
  change (query_request st :: ?t) with ([query_request st] ++ t).
  rewrite !run_app, run_piece_traces.
  set (st0 := run (run st resets) [query_request st]).
  pose proof (displayed_run_events (events_of pieces) st0 [] [] eq_refl eq_refl) as Hd.
  rewrite displayed_caught. unfold displayed in Hd. injection Hd as Ha Hc _.
  rewrite Ha, Hc. reflexivity.
Qed.

Lemma run_events_state (events : list StreamEvent) :
  forall (st : state) (a : jsstring) (cs0 : list Citation),
  answer st = VStr a ->
  citations st = VArr (map citation_value cs0) ->
  run st (map effect_of_event events)
  = State (selectedFile st) (query st) (VStr (a ++ answer_text events))
      (VArr (map citation_value
               (fold_left (fun acc e => match e with Citations cs => cs | _ => acc end)
                  events cs0)))
      (isLoading st)
      (fold_left (fun acc e => match e with Error s => VStr s | _ => acc end)
         events (error st)).
Proof.
  induction events as [|e events IH]; intros st a cs0 Ha Hc.
  - cbn. rewrite List.app_nil_r, <- Ha, <- Hc. destruct st; reflexivity.
  - cbn [map run fold_left].
    fold (run (apply st (effect_of_event e)) (map effect_of_event events)).
    destruct e as [s|cs|s]; cbn [effect_of_event answer_text flat_map].
    + rewrite (IH _ (a ++ s) cs0).
      * rewrite <- app_assoc. reflexivity.
      * cbn. rewrite Ha. reflexivity.
      * exact Hc.
    + rewrite (IH _ a cs); [reflexivity|exact Ha|reflexivity].
    + rewrite (IH _ a cs0); [reflexivity|exact Ha|exact Hc].
Qed.

(** The whole state when a delivery of whole records has been read. *)
Lemma final_state_records
    (st : state) (pieces : list (list byte * list (jsstring * StreamEvent))) :
  Forall (fun p => delivers_records (fst p) (snd p)) pieces ->
  run st
    (handleQuery st
       (Fulfilled {| query_ok := true; query_body := stream_of (map fst pieces) |}))
  = State (selectedFile st) (query st) (VStr (answer_text (events_of pieces)))
      (VArr (map citation_value (last_citations (events_of pieces)))) false
      (last_error (events_of pieces)).
Proof.
  intros H. rewrite handleQuery_ok, (read_loop_records _ H).
  unfold try_catch_finally.
  change (query_request st :: ?t) with ([query_request st] ++ t).
  rewrite !run_app, run_piece_traces.
  set (st0 := run (run st resets) [query_request st]).
  rewrite (run_events_state _ st0 [] []); reflexivity.
Qed.

(** *** The answer card *)

Lemma render_citation_values (cs : list Citation) :
  render_citations (VArr (map citation_value cs)) = inr (map citation_card cs).
Proof.
  unfold render_citations. induction cs as [|c cs IH]; [reflexivity|].
  simpl map. simpl map_result. rewrite IH. reflexivity.
Qed.

Lemma answer_card_of (st : state) (a : jsstring) (cs : list Citation) :
  answer st = VStr a ->
  citations st = VArr (map citation_value cs) ->
  answer_card st
  = inr (if jsstring_eqb a [] then braces (VStr a) else card_of a cs).
Proof.
  intros Ha Hc. unfold answer_card. rewrite Ha, Hc. cbn [truthy].
  destruct (jsstring_eqb a []); [reflexivity|].
  cbn [negb]. rewrite render_citation_values. reflexivity.
Qed.

(** After a delivery of whole records, rendering the answer card does not
    throw. The card is shown only when some chunk text was received: it
    then holds the answer and one entry per citation of the last citations
    event; citations that come without any answer text are not shown. *)
Theorem answer_card_after_stream
    (st : state) (pieces : list (list byte * list (jsstring * StreamEvent))) :
  Forall (fun p => delivers_records (fst p) (snd p)) pieces ->
  answer_card (run st
    (handleQuery st
       (Fulfilled {| query_ok := true; query_body := stream_of (map fst pieces) |})))
  = inr (if jsstring_eqb (answer_text (events_of pieces)) []
         then braces (VStr (answer_text (events_of pieces)))
         else card_of (answer_text (events_of pieces))
                (last_citations (events_of pieces))).
Proof.
  intros H. rewrite (final_state_records st pieces H).
  apply answer_card_of; reflexivity.
Qed.

Lemma error_banner_of (st : state) (v : value) :
  error st = v ->
  error_banner st
  = if truthy v then element (js "div") None (Some (js "error")) [braces v] else braces v.
Proof. intros <-. reflexivity. Qed.

(** After a delivery of whole records the banner shows the data of the
    last error event when that is a non-empty string, next to the answer
    card and not instead of it; without such an event there is no banner. *)
Theorem error_banner_after_stream
    (st : state) (pieces : list (list byte * list (jsstring * StreamEvent))) :
  Forall (fun p => delivers_records (fst p) (snd p)) pieces ->
  error_banner (run st
    (handleQuery st
       (Fulfilled {| query_ok := true; query_body := stream_of (map fst pieces) |})))
  = if truthy (last_error (events_of pieces))
    then element (js "div") None (Some (js "error")) [braces (last_error (events_of pieces))]
    else braces (last_error (events_of pieces)).
Proof.
  intros H. rewrite (final_state_records st pieces H).
  apply error_banner_of. reflexivity.
Qed.

(** A query that fails before its stream is read leaves nothing of the
    previous query on display: the answer and the citations are empty and
    the error is the message of the failed request, or the fixed text for
    a response that is not ok, whatever its body holds. *)
Theorem handleQuery_failure_display (st : state) (body : stream) (err : exn) :
  displayed (run st (handleQuery st (Failed err)))
  = (VStr [], VArr [], VStr (message err))
  /\ displayed (run st
       (handleQuery st (Fulfilled {| query_ok := false; query_body := body |})))
     = (VStr [], VArr [], VStr (js "Query failed. Is the backend running?")).
Proof. split; reflexivity. Qed.

(** With an answer on display, rendering throws a [TypeError] as soon as
    the citations are not an array: a citations record may carry any
    [data], and [citations.map] is called on it as it is. *)
Theorem answer_card_needs_array (st : state) :
  truthy (answer st) = true ->
  (forall elements, citations st <> VArr elements) ->
  exists e, answer_card st = inl e /\ kind e = TypeError.
Proof.
  intros Ht Hc. unfold answer_card. rewrite Ht. unfold render_citations.
  destruct (citations st) as [| |b|n|s|els|ms]; eauto.
  exfalso. apply (Hc els). reflexivity.
Qed.

End Further.

(** ** The claims on concrete streams and bodies *)

Section Examples.
#[local] Existing Instance Reference.engine.

(** C1 fails on the spec's own example: the first piece is parsed
    on its own, [JSON.parse] throws on it, the loop is left with the
    message of that error as the error state, the second piece is never
    read, and no chunk event is reconstructed: the answer stays empty. *)
Lemma split_record_is_not_reconstructed :
  handleQuery initial_state
    (Fulfilled {| query_ok := true; query_body := split_delivery |})
  = resets ++ [query_request initial_state; reader_read;
               setError (VStr (json_syntax_message (json "{'type':'ch")));
               setIsLoading false]
  /\ answer (run initial_state
       (handleQuery initial_state
          (Fulfilled {| query_ok := true; query_body := split_delivery |})))
     = VStr []
  /\ JSON_parse (json "{'type':'chunk','data':'hi'}")
     = inr (event_value (Chunk (js "hi"))).
Proof.
  split; [apply split_delivery_trace|]. split.
  - rewrite split_delivery_trace. reflexivity.
  - vm_compute. reflexivity.
Qed.

(** C2 fails: after the error record the loop reads on, and the chunk
    record that follows the error is applied to the answer. *)
Lemma records_after_error_are_applied :
  handleQuery initial_state
    (Fulfilled {| query_ok := true; query_body := error_then_chunk |})
  = resets ++ [query_request initial_state;
               reader_read; setError (VStr (js "boom"));
               reader_read; setAnswer_prev_plus (VStr (js "late"));
               reader_read; setIsLoading false]
  /\ displayed (run initial_state
       (handleQuery initial_state
          (Fulfilled {| query_ok := true; query_body := error_then_chunk |})))
     = (VStr (js "late"), VArr [], VStr (js "boom")).
Proof.
  split; [apply error_then_chunk_trace|].
  rewrite error_then_chunk_trace. reflexivity.
Qed.


(** Three events delivered in two pieces of whole records. *)
Lemma aligned_pieces_are_reconstructed_witness :
  map JSON_parse
    (flat_map (fun events => lines_of (TextDecoder_decode (flat_map wire_record events)))
       three_events)
  = map (fun e => inr (event_value e)) (List.concat three_events)
  /\ handleQuery initial_state
       (Fulfilled {| query_ok := true;
                     query_body := stream_of (map (flat_map wire_record) three_events) |})
     = resets ++ query_request initial_state
         :: flat_map piece_trace three_events ++ [reader_read; setIsLoading false].
Proof.
  apply (aligned_pieces_are_reconstructed initial_state three_events).
  repeat constructor.
Defined.

(** Two chunks in one piece, then the citations in a second one. *)
Lemma handleQuery_applies_events_in_order_witness :
  handleQuery initial_state
    (Fulfilled {| query_ok := true;
                  query_body := stream_of (map fst aligned_delivery) |})
  = resets ++ query_request initial_state
      :: [reader_read; setAnswer_prev_plus (VStr (js "Hel"));
          setAnswer_prev_plus (VStr (js "lo"));
          reader_read;
          setCitations (VArr [citation_value {| id := 1; source_text := js "s" |}])]
      ++ [reader_read; setIsLoading false].
Proof.
  apply (handleQuery_applies_events_in_order initial_state aligned_delivery).
  repeat constructor; vm_compute; reflexivity.
Defined.

(** An error record between two chunk records of one piece. *)
Lemma error_event_does_not_abort_witness :
  read_loop
    (delivered (json_line "{'type':'chunk','data':'a'}"
                ++ json_line "{'type':'error','data':'boom'}"
                ++ json_line "{'type':'chunk','data':'b'}") done)
  = perform reader_read ;;
    for_of [json "{'type':'chunk','data':'a'}"] process_line ;;
    perform (setError (VStr (js "boom"))) ;;
    for_of [json "{'type':'chunk','data':'b'}"] process_line ;;
    read_loop done.
Proof.
  apply (error_event_does_not_abort _ _ _
           (json "{'type':'error','data':'boom'}")
           (event_value (Error (js "boom"))));
    vm_compute; reflexivity.
Defined.

(** A chunk received when the answer is [hello]. *)
Lemma chunk_event_appends_witness :
  process_line (json "{'type':'chunk','data':' world'}")
  = ([setAnswer_prev_plus (VStr (js " world"))], inr tt)
  /\ run (State None [] (VStr (js "hello")) (VArr []) true (VStr []))
       (fst (process_line (json "{'type':'chunk','data':' world'}")))
     = State None [] (VStr (js "hello" ++ js " world")) (VArr []) true (VStr []).
Proof.
  apply (chunk_event_appends
           (State None [] (VStr (js "hello")) (VArr []) true (VStr []))
           _ (event_value (Chunk (js " world"))));
    vm_compute; reflexivity.
Defined.

(** Citations received when one citation is held already. *)
Lemma citations_event_replaces_witness :
  process_line (json "{'type':'citations','data':[{'id':2,'source_text':'t'}]}")
  = ([setCitations (VArr [citation_value {| id := 2; source_text := js "t" |}])], inr tt)
  /\ run (State None [] (VStr (js "a"))
            (VArr [citation_value {| id := 1; source_text := js "s" |}]) true (VStr []))
       (fst (process_line
               (json "{'type':'citations','data':[{'id':2,'source_text':'t'}]}")))
     = State None [] (VStr (js "a"))
         (VArr [citation_value {| id := 2; source_text := js "t" |}]) true (VStr []).
Proof.
  apply (citations_event_replaces
           (State None [] (VStr (js "a"))
              (VArr [citation_value {| id := 1; source_text := js "s" |}]) true (VStr []))
           _ (event_value (Citations [{| id := 2; source_text := js "t" |}])));
    vm_compute; reflexivity.
Defined.

(** An error received after a partial answer and a citation. *)
Lemma error_event_keeps_answer_witness :
  process_line (json "{'type':'error','data':'boom'}")
  = ([setError (VStr (js "boom"))], inr tt)
  /\ run (State None [] (VStr (js "partial"))
            (VArr [citation_value {| id := 1; source_text := js "s" |}]) true (VStr []))
       (fst (process_line (json "{'type':'error','data':'boom'}")))
     = State None [] (VStr (js "partial"))
         (VArr [citation_value {| id := 1; source_text := js "s" |}]) true
         (VStr (js "boom")).
Proof.
  apply (error_event_keeps_answer
           (State None [] (VStr (js "partial"))
              (VArr [citation_value {| id := 1; source_text := js "s" |}]) true (VStr []))
           _ (event_value (Error (js "boom"))));
    vm_compute; reflexivity.
Defined.

(** A record of an unknown type. *)
Lemma unknown_type_is_ignored_witness :
  process_line (json "{'type':'ping','data':'x'}") = ([], inr tt)
  /\ run (State None [] (VStr (js "partial")) (VArr []) true (VStr []))
       (fst (process_line (json "{'type':'ping','data':'x'}")))
     = State None [] (VStr (js "partial")) (VArr []) true (VStr []).
Proof.
  apply (unknown_type_is_ignored
           (State None [] (VStr (js "partial")) (VArr []) true (VStr []))
           _ (VObj [(js "type", VStr (js "ping")); (js "data", VStr (js "x"))])
           (VStr (js "ping")));
    vm_compute; reflexivity.
Defined.




End Examples.

(** ** The further properties on concrete inputs *)

Section FurtherExamples.
#[local] Existing Instance Reference.engine.

(** Six effects into a query whose stream holds three records. *)
Lemma handleQuery_loading_throughout_witness :
  let during :=
    run initial_state
      (firstn 6 (handleQuery initial_state
                   (Fulfilled {| query_ok := true; query_body := error_then_chunk |}))) in
  isLoading during = true
  /\ ingest_button_disabled during = true
  /\ query_button_disabled during = true.
Proof.
  apply (handleQuery_loading_throughout initial_state
           (Fulfilled {| query_ok := true; query_body := error_then_chunk |}) 6).
  vm_compute. lia.
Defined.



(** A request that fails, and a body that is not JSON. *)
Lemma handleIngest_shows_failure_witness :
  error (run chosen_state
    (handleIngest chosen_state (Failed (Exn NetworkError (js "Failed to fetch")))))
  = VStr (js "Failed to fetch")
  /\ error (run chosen_state
       (handleIngest chosen_state
          (Fulfilled {| ingest_ok := false;
                        ingest_json := inl (Exn NetworkError (js "Failed to fetch")) |})))
     = VStr (js "Failed to fetch").
Proof.
  exact (handleIngest_shows_failure chosen_state chosen_file false
           (Exn NetworkError (js "Failed to fetch")) eq_refl).
Defined.

(** Three effects into an ingestion that fails. *)
Lemma handleIngest_loading_throughout_witness :
  let during :=
    run chosen_state
      (firstn 3 (handleIngest chosen_state
                   (Failed (Exn NetworkError (js "Failed to fetch"))))) in
  isLoading during = true
  /\ ingest_button_disabled during = true
  /\ query_button_disabled during = true.
Proof.
  apply (handleIngest_loading_throughout chosen_state chosen_file
           (Failed (Exn NetworkError (js "Failed to fetch"))) 3 eq_refl).
  vm_compute. lia.
Defined.

(** A chunk, then half a record, then a chunk that is never processed. *)
Lemma parse_failure_aborts_witness :
  read_loop
    (delivered (json_line "{'type':'chunk','data':'a'}"
                ++ json_line "{'type':'chu"
                ++ json_line "{'type':'chunk','data':'b'}") done)
  = perform reader_read ;;
    for_of [json "{'type':'chunk','data':'a'}"] process_line ;;
    throw (Exn SyntaxError (json_syntax_message (json "{'type':'chu"))).
Proof.
  apply (parse_failure_aborts _ _ [json "{'type':'chunk','data':'b'}"]
           (json "{'type':'chu"));
    vm_compute; reflexivity.
Defined.

(** A line that holds an array. *)
Lemma non_object_records_witness : process_line (json "[1, 2]") = ret tt.
Proof.
  exact (non_object_records (json "[1, 2]")
           (VArr [VNum (number_of_literal (js "1")); VNum (number_of_literal (js "2"))])
           eq_refl).
Defined.


(** Two lines with a blank line between them and no newline at the end. *)
Lemma lines_of_joined_witness :
  lines_of (join [0xA] [js "1"; js "  "; js "2"]) = filter nonblank [js "1"; js "  "; js "2"].
Proof.
  apply (lines_of_joined [js "1"; js "  "; js "2"]).
  repeat constructor.
Defined.

Lemma aligned_delivery_delivers :
  Forall (fun p => delivers_records (fst p) (snd p)) aligned_delivery.
Proof. repeat constructor; vm_compute; reflexivity. Defined.

(** Two chunks and the citations, read to the end. *)
Lemma handleQuery_final_display_witness :
  displayed (run initial_state
    (handleQuery initial_state
       (Fulfilled {| query_ok := true;
                     query_body := stream_of (map fst aligned_delivery) |})))
  = (VStr (answer_text (events_of aligned_delivery)),
     VArr (map citation_value (last_citations (events_of aligned_delivery))),
     last_error (events_of aligned_delivery)).
Proof.
  exact (handleQuery_final_display initial_state aligned_delivery aligned_delivery_delivers).
Defined.

(** The same pieces, and then a read that fails. *)
Lemma handleQuery_read_failure_witness :
  displayed (run initial_state
    (handleQuery initial_state
       (Fulfilled {| query_ok := true;
                     query_body := failing_stream (map fst aligned_delivery)
                                     (Exn NetworkError (js "network error")) |})))
  = (VStr (answer_text (events_of aligned_delivery)),
     VArr (map citation_value (last_citations (events_of aligned_delivery))),
     VStr (js "network error")).
Proof.
  exact (handleQuery_read_failure initial_state aligned_delivery
           (Exn NetworkError (js "network error")) aligned_delivery_delivers).
Defined.

(** The card after two chunks and one citation. *)
Lemma answer_card_after_stream_witness :
  answer_card (run initial_state
    (handleQuery initial_state
       (Fulfilled {| query_ok := true;
                     query_body := stream_of (map fst aligned_delivery) |})))
  = inr (card_of (js "Hello") [{| id := 1; source_text := js "s" |}]).
Proof.
  exact (answer_card_after_stream initial_state aligned_delivery aligned_delivery_delivers).
Defined.

(** An error record after a chunk: the banner and the card are both shown. *)
Lemma error_banner_after_stream_witness :
  error_banner (run initial_state
    (handleQuery initial_state
       (Fulfilled {| query_ok := true;
                     query_body := stream_of (map fst chunk_then_error) |})))
  = element (js "div") None (Some (js "error")) [braces (VStr (js "boom"))]
  /\ answer_card (run initial_state
       (handleQuery initial_state
          (Fulfilled {| query_ok := true;
                        query_body := stream_of (map fst chunk_then_error) |})))
     = inr (card_of (js "partial") []).
Proof.
  assert (H : Forall (fun p => delivers_records (fst p) (snd p)) chunk_then_error)
    by (repeat constructor; vm_compute; reflexivity).
  split.
  - exact (error_banner_after_stream initial_state chunk_then_error H).
  - rewrite handleQuery_ok. vm_compute. reflexivity.
Defined.

(** An answer on display and citations that are a string. *)
Lemma answer_card_needs_array_witness :
  exists e,
    answer_card (State None [] (VStr (js "answer")) (VStr (js "none")) false (VStr []))
    = inl e /\ kind e = TypeError.
Proof.
  apply (answer_card_needs_array
           (State None [] (VStr (js "answer")) (VStr (js "none")) false (VStr []))).
  - reflexivity.
  - intros elements H. discriminate H.
Defined.

(** The letter e with an acute accent, C3 A9, between two letters. *)
Lemma split_character_is_replaced_witness :
  TextDecoder_decode ([x63; x61; x66] ++ xc3 :: xa9 :: [x73])
  = map Byte.to_N [x63; x61; x66]
    ++ two_byte_code_point (Byte.to_N xc3) (Byte.to_N xa9) :: map Byte.to_N [x73]
  /\ TextDecoder_decode ([x63; x61; x66] ++ [xc3]) ++ TextDecoder_decode (xa9 :: [x73])
     = map Byte.to_N [x63; x61; x66] ++ REPLACEMENT :: REPLACEMENT :: map Byte.to_N [x73].
Proof.
  apply (split_character_is_replaced [x63; x61; x66] [x73] xc3 xa9).
  - repeat constructor.
  - repeat constructor.
  - vm_compute. split; discriminate.
  - vm_compute. split; discriminate.
Defined.

End FurtherExamples.
